(** * Face: descriptor store, matching and enrollment (face-api.js), cache
      strategy dispatch (sw.js)

    A shallow embedding of the two source files of the repository.

    - JavaScript numbers are the binary64 floats of the kernel
      ([PrimFloat.float]): [+], [-], [*], [sqrt], [<] and [<=] are the IEEE
      operations the source runs, NaN and the infinities included.
    - A [Float32Array] is the list of the numbers read from it; writing into
      one rounds to binary32 ([fround]).
    - An object used as a table is the list of its own enumerable properties
      in the order [Object.keys] and [Object.entries] enumerate them.
    - [this] of the recognizer is a record threaded through the methods;
      [localStorage] is one of its fields. *)

From Stdlib Require Import Floats ZArith NArith List String Ascii Bool Lia.
Import ListNotations.

Local Open Scope string_scope.
Local Open Scope list_scope.
Local Set Warnings "-register-all,-inexact-float".

(* ================================================================= *)
(** * Part I: the embedding *)
(* ================================================================= *)

(** ** Numbers *)

Definition num : Set := float.

Definition NaN : num := nan.
Definition POSITIVE_INFINITY : num := infinity.

(** [a >= b] of the source: false as soon as one side is NaN. *)
Definition geb (a b : num) : bool := (b <=? a)%float.

(** [Math.fround]: the binary32 value nearest to [x] (ties to even), read
    back as a number.  This is what a store into a [Float32Array] keeps. *)
Definition fround (x : num) : num :=
  match Prim2SF x with
  | S754_finite s m e =>
      SF2Prim (binary_normalize 24 128 (cond_Zopp s (Zpos m)) e s)
  | _ => x
  end.

(** A number a [Float32Array] can hold. *)
Definition is_float32 (x : num) : Prop := fround x = x.

(** ** Typed arrays *)

Definition Float32Array : Set := list num.

(** [a[i]] used as a number: an index past the end reads [undefined], which
    arithmetic turns into NaN. *)
Definition elem (a : Float32Array) (i : nat) : num :=
  match nth_error a i with
  | Some x => x
  | None => NaN
  end.

(** ** Objects used as tables *)

(** The own enumerable properties of an object, in enumeration order.  The
    names are plain data keys. *)
Definition obj (A : Type) : Type := list (string * A).

Definition digit (c : ascii) : option N :=
  let n := N_of_ascii c in
  if ((48 <=? n) && (n <=? 57))%N then Some (n - 48)%N else None.

Fixpoint decimal (acc : N) (s : string) : option N :=
  match s with
  | EmptyString => Some acc
  | String c r =>
      match digit c with
      | Some d => decimal (10 * acc + d)%N r
      | None => None
      end
  end.

(** An array index: the canonical decimal spelling of an integer below
    [2^32 - 1].  Such keys are enumerated first, in ascending order. *)
Definition array_index (k : string) : option N :=
  match k with
  | EmptyString => None
  | String c r =>
      if (Ascii.eqb c "0" && negb (String.eqb r ""))%bool then None
      else match decimal 0 k with
           | Some n => if (n <? 4294967295)%N then Some n else None
           | None => None
           end
  end.

(** [precedes k k']: a new key [k] is enumerated before the existing [k']. *)
Definition precedes (k k' : string) : bool :=
  match array_index k, array_index k' with
  | Some n, Some n' => (n <? n')%N
  | Some _, None => true
  | None, _ => false
  end.

Fixpoint wf_keys (keys : list string) : bool :=
  match keys with
  | [] => true
  | k :: r =>
      forallb (fun k' => negb (String.eqb k' k) && negb (precedes k' k)) r
      && wf_keys r
  end.

Section Obj.
Context {A : Type}.

Definition Object_keys (o : obj A) : list string := map fst o.
Definition Object_entries (o : obj A) : list (string * A) := o.

Fixpoint obj_get (k : string) (o : obj A) : option A :=
  match o with
  | [] => None
  | (k', v) :: r => if String.eqb k k' then Some v else obj_get k r
  end.

Definition obj_has (k : string) (o : obj A) : bool :=
  existsb (String.eqb k) (Object_keys o).

Fixpoint obj_update (k : string) (v : A) (o : obj A) : obj A :=
  match o with
  | [] => []
  | (k', v') :: r =>
      if String.eqb k k' then (k', v) :: r else (k', v') :: obj_update k v r
  end.

Fixpoint obj_insert (k : string) (v : A) (o : obj A) : obj A :=
  match o with
  | [] => [(k, v)]
  | (k', v') :: r =>
      if precedes k k' then (k, v) :: o else (k', v') :: obj_insert k v r
  end.

(** [o[k] = v]: an existing property keeps its place, a new one is
    created (array indices in ascending order, other keys at the end). *)
Definition obj_set (k : string) (v : A) (o : obj A) : obj A :=
  if obj_has k o then obj_update k v o else obj_insert k v o.

(** [delete o[k]]. *)
Definition obj_delete (k : string) (o : obj A) : obj A :=
  filter (fun e => negb (String.eqb k (fst e))) o.

(** The shape every object has: no key twice, and no key after one it
    would be enumerated before. *)
Definition wf_obj (o : obj A) : bool := wf_keys (Object_keys o).
End Obj.

(** ** The descriptor table *)

Definition store : Type := obj (list Float32Array).

(** ** face-api.js: [euclidean] (lines 136-143) *)

Definition euclidean (a b : Float32Array) : num :=
  sqrt
    (fold_left
       (fun (s : num) (i : nat) =>
          let d := (elem a i - elem b i)%float in
          (s + d * d)%float)
       (seq 0 (List.length a)) 0%float).

(** ** face-api.js: [matchDescriptor] (lines 146-168) *)

Record match_result : Type := {
  bestName : string;
  bestDist : num;
  secondBest : num
}.

(** The inner loop: the least distance to one person's descriptors. *)
Definition person_best (desc : Float32Array) (list : list Float32Array) : num :=
  fold_left
    (fun (personBest : num) (stored : Float32Array) =>
       let dist := euclidean desc stored in
       if (dist <? personBest)%float then dist else personBest)
    list POSITIVE_INFINITY.

(** One turn of the outer loop: update the global top two. *)
Definition top2 (desc : Float32Array) (acc : match_result)
    (entry : string * list Float32Array) : match_result :=
  let '(name, list) := entry in
  let personBest := person_best desc list in
  if (personBest <? bestDist acc)%float then
    {| bestName := name; bestDist := personBest; secondBest := bestDist acc |}
  else if (personBest <? secondBest acc)%float then
    {| bestName := bestName acc; bestDist := bestDist acc; secondBest := personBest |}
  else acc.

Definition no_match : match_result :=
  {| bestName := "Unknown";
     bestDist := POSITIVE_INFINITY;
     secondBest := POSITIVE_INFINITY |}.

Definition matchDescriptor (db : store) (desc : Float32Array) : match_result :=
  fold_left (top2 desc) (Object_entries db) no_match.

(** ** Exceptions *)

Inductive error : Type :=
| Error (message : string)
| SyntaxError
| TypeError
| RangeError.

Inductive completion (A : Type) : Type :=
| Return (a : A)
| Throw (e : error).
Arguments Return {A} a.
Arguments Throw {A} e.

(** ** The persisted document *)

(** What [JSON.parse] returns. *)
Inductive json : Type :=
| JNull
| JBool (b : bool)
| JNum (x : num)
| JStr (s : string)
| JArr (items : list json)
| JObj (members : list (string * json)).

(** The string kept under [FaceDB_KEY].  A JSON text is identified with the
    document it denotes, its members in the order they are written; every
    other string is [Malformed].  A finite number is written in the shortest
    decimal form that reads back as the same number, so the text adds
    nothing to the document. *)
Inductive raw : Type :=
| Malformed (text : string)
| JsonText (doc : json).

(** [!raw] on a string. *)
Definition falsy (r : raw) : bool :=
  match r with
  | Malformed text => String.eqb text ""
  | JsonText _ => false
  end.

Definition JSON_parse (r : raw) : completion json :=
  match r with
  | Malformed _ => Throw SyntaxError
  | JsonText doc => Return doc
  end.

(** The object [JSON.parse] builds from the members of an object text. *)
Definition object_of_members {A : Type} (members : list (string * A)) : obj A :=
  fold_left (fun o m => obj_set (fst m) (snd m) o) members [].

(** Zero without its sign. *)
Definition plus_zero (x : num) : num := if is_zero x then 0%float else x.

(** A number as [JSON.stringify] writes it: NaN and the infinities become
    [null], negative zero is written [0]. *)
Definition stringify_number (x : num) : json :=
  if is_finite x then JNum (plus_zero x) else JNull.

Definition JSON_stringify (o : obj (list (list num))) : raw :=
  JsonText
    (JObj
       (map (fun m => (fst m, JArr (map (fun a => JArr (map stringify_number a)) (snd m))))
            (Object_entries o))).

(** ** The recognizer *)

Record recognizer : Type := {
  distanceThreshold : num;
  secondBestMargin : num;
  minBoxWidth : num;
  minDetectionScore : num;
  samplesPerPose : Z;
  poseInstructions : list (string * string);
  running : bool;
  db : store;
  (** the item of [localStorage] under [FaceDB_KEY]; [None] is [null] *)
  localStorage : option raw
}.

Definition set_running (b : bool) (this : recognizer) : recognizer :=
  {| distanceThreshold := distanceThreshold this;
     secondBestMargin := secondBestMargin this;
     minBoxWidth := minBoxWidth this;
     minDetectionScore := minDetectionScore this;
     samplesPerPose := samplesPerPose this;
     poseInstructions := poseInstructions this;
     running := b;
     db := db this;
     localStorage := localStorage this |}.

Definition set_db (d : store) (this : recognizer) : recognizer :=
  {| distanceThreshold := distanceThreshold this;
     secondBestMargin := secondBestMargin this;
     minBoxWidth := minBoxWidth this;
     minDetectionScore := minDetectionScore this;
     samplesPerPose := samplesPerPose this;
     poseInstructions := poseInstructions this;
     running := running this;
     db := d;
     localStorage := localStorage this |}.

(** [localStorage.setItem(FaceDB_KEY, r)], taken to succeed. *)
Definition setItem (r : raw) (this : recognizer) : recognizer :=
  {| distanceThreshold := distanceThreshold this;
     secondBestMargin := secondBestMargin this;
     minBoxWidth := minBoxWidth this;
     minDetectionScore := minDetectionScore this;
     samplesPerPose := samplesPerPose this;
     poseInstructions := poseInstructions this;
     running := running this;
     db := db this;
     localStorage := Some r |}.

(** The constructor's defaults (lines 8-24), on a given table and storage. *)
Definition default_recognizer (d : store) (item : option raw) : recognizer :=
  {| distanceThreshold := 0.5%float;
     secondBestMargin := 0.05%float;
     minBoxWidth := 120%float;
     minDetectionScore := 0.8%float;
     samplesPerPose := 3%Z;
     poseInstructions :=
       [("Center", "Look straight ahead");
        ("Left", "Turn your head slightly to the left");
        ("Right", "Turn your head slightly to the right");
        ("Up", "Tilt your head up a bit");
        ("Down", "Tilt your head down a bit")];
     running := false;
     db := d;
     localStorage := item |}.

(** ** face-api.js: [loadDB] (lines 82-95) *)

(** What [loadDB] hands back: the rebuilt object, or, when the text denotes
    an array, a number, a boolean or the empty string, that value itself. *)
Inductive loaded : Type :=
| PlainObject (d : store)
| ArrayObject (elems : list (list Float32Array))
| Primitive (j : json).

Section LoadDB.
(** Two conversions of the host that only malformed documents reach:
    [ToNumber] of a string, an array or an object, and the typed-array
    constructor on anything but an array ([None]: it throws). *)
Variable ToNumber_other : json -> num.
Variable Float32Array_other : json -> option Float32Array.

Definition ToNumber (j : json) : num :=
  match j with
  | JNum x => x
  | JNull => 0%float
  | JBool b => if b then 1%float else 0%float
  | _ => ToNumber_other j
  end.

(** [new Float32Array(arr)]. *)
Definition new_Float32Array (arr : json) : completion Float32Array :=
  match arr with
  | JArr items => Return (map (fun j => fround (ToNumber j)) items)
  | _ => match Float32Array_other arr with
         | Some a => Return a
         | None => Throw RangeError
         end
  end.

Fixpoint map_completion {A B : Type} (f : A -> completion B) (l : list A)
    : completion (list B) :=
  match l with
  | [] => Return []
  | x :: r =>
      match f x with
      | Throw e => Throw e
      | Return y =>
          match map_completion f r with
          | Throw e => Throw e
          | Return ys => Return (y :: ys)
          end
      end
  end.

(** [v.map(arr => new Float32Array(arr))]: only an array has [map]. *)
Definition to_descriptors (v : json) : completion (list Float32Array) :=
  match v with
  | JArr items => map_completion new_Float32Array items
  | _ => Throw TypeError
  end.

(** The body of the [try] block. *)
Definition loadDB_try (item : option raw) : completion loaded :=
  match item with
  | None => Return (PlainObject [])
  | Some r =>
      if falsy r then Return (PlainObject [])
      else
        match JSON_parse r with
        | Throw e => Throw e
        | Return doc =>
            match doc with
            | JNull => Throw TypeError
            | JBool _ | JNum _ => Return (Primitive doc)
            | JStr s =>
                if String.eqb s "" then Return (Primitive doc) else Throw TypeError
            | JArr items =>
                match map_completion to_descriptors items with
                | Throw e => Throw e
                | Return l => Return (ArrayObject l)
                end
            | JObj members =>
                match
                  map_completion
                    (fun m =>
                       match to_descriptors (snd m) with
                       | Throw e => Throw e
                       | Return l => Return (fst m, l)
                       end)
                    (Object_entries (object_of_members members))
                with
                | Throw e => Throw e
                | Return d => Return (PlainObject d)
                end
            end
        end
  end.

Definition loadDB (item : option raw) : loaded :=
  match loadDB_try item with
  | Return o => o
  | Throw _ => PlainObject []
  end.
End LoadDB.

(** ** face-api.js: [saveDB], [delete], [replace], [setThresholds]
       (lines 97-118) *)

(** [Array.from(f32)]: the numbers of the typed array, as they are. *)
Definition Array_from (f32 : Float32Array) : list num := f32.

(** The object [saveDB] fills, name by name; each name comes from
    [Object.keys(this.db)], so [this.db[name]] is there. *)
Definition serializable (d : store) : obj (list (list num)) :=
  fold_left
    (fun s name =>
       match obj_get name d with
       | Some list => obj_set name (map Array_from list) s
       | None => s
       end)
    (Object_keys d) [].

Definition saveDB (this : recognizer) : recognizer :=
  setItem (JSON_stringify (serializable (db this))) this.

Definition delete (name : string) (this : recognizer) : recognizer :=
  saveDB (set_db (obj_delete name (db this)) this).

Definition replace (name : string) (descriptors : list Float32Array)
    (this : recognizer) : recognizer :=
  saveDB (set_db (obj_set name descriptors (db this)) this).

Definition setThresholds (distance margin : option num) (this : recognizer)
    : recognizer :=
  {| distanceThreshold :=
       match distance with Some x => x | None => distanceThreshold this end;
     secondBestMargin :=
       match margin with Some x => x | None => secondBestMargin this end;
     minBoxWidth := minBoxWidth this;
     minDetectionScore := minDetectionScore this;
     samplesPerPose := samplesPerPose this;
     poseInstructions := poseInstructions this;
     running := running this;
     db := db this;
     localStorage := localStorage this |}.

(** ** face-api.js: [detectOne] (lines 121-133) *)

(** What the detector reports for a frame. *)
Record face : Type := {
  box_width : num;
  score : num;
  descriptor : Float32Array
}.

Definition detectOne (this : recognizer) (detection : option face) : option face :=
  match detection with
  | None => None
  | Some f =>
      if (box_width f <? minBoxWidth this)%float then None
      else Some {| box_width := box_width f;
                   score := score f;
                   descriptor := map fround (descriptor f) |}
  end.

(** One turn of a polling loop: what the detector saw, and whether [stop]
    was called before the loop looked at [running] again. *)
Record tick : Type := {
  frame : option face;
  stopped : bool
}.

(** ** face-api.js: [enroll] (lines 171-220) *)

Record enrollment : Type := {
  collected : list Float32Array;
  poseIdx : nat;
  poseCount : Z;
  (** the calls made to [onProgress]: pose index, pose count, total *)
  progress : list (nat * Z * nat)
}.

Definition enroll_start : enrollment :=
  {| collected := []; poseIdx := 0; poseCount := 0; progress := [] |}.

(** The body of the [while] loop. *)
Definition enroll_step (this : recognizer) (e : enrollment)
    (detection : option face) : enrollment :=
  match detectOne this detection with
  | None => e
  | Some result =>
      let collected' := collected e ++ [descriptor result] in
      let poseCount' := (poseCount e + 1)%Z in
      let progress' :=
        progress e ++ [(poseIdx e, poseCount', List.length collected')] in
      if (poseCount' >=? samplesPerPose this)%Z then
        {| collected := collected';
           poseIdx := S (poseIdx e);
           poseCount := 0;
           progress := progress' |}
      else
        {| collected := collected';
           poseIdx := poseIdx e;
           poseCount := poseCount';
           progress := progress' |}
  end.

(** The loop over the frames the camera delivers.  [None]: the frames ran
    out while the loop was still waiting for the next one. *)
Fixpoint enroll_loop (this : recognizer) (is_running : bool) (e : enrollment)
    (ticks : list tick) : option enrollment :=
  if (is_running && (poseIdx e <? List.length (poseInstructions this))%nat)%bool then
    match ticks with
    | [] => None
    | t :: ticks' =>
        enroll_loop this (negb (stopped t)) (enroll_step this e (frame t)) ticks'
    end
  else Some e.

Definition stopVideo (this : recognizer) : recognizer := set_running false this.

Definition no_samples : string :=
  "No high-quality face samples collected. Try better lighting and keep still.".

(** [enroll(name, onProgress)] once the camera has started.  The result is
    the completion of the call and the recognizer it leaves. *)
Definition enroll (name : string) (ticks : list tick) (this : recognizer)
    : option (completion nat * recognizer) :=
  let this1 := set_running true this in
  match enroll_loop this1 true enroll_start ticks with
  | None => None
  | Some e =>
      let this2 := stopVideo this1 in
      if (List.length (collected e) =? 0)%nat then
        Some (Throw (Error no_samples), this2)
      else
        Some (Return (List.length (collected e)), replace name (collected e) this2)
  end.

(** ** face-api.js: [verify] (lines 223-260) *)

Definition accept (this : recognizer) (m : match_result) : bool :=
  ((bestDist m <=? distanceThreshold this)%float
   && geb (secondBest m - bestDist m)%float (secondBestMargin this))%bool.

(** The decision for one frame: the argument of [onResult]. *)
Definition verify_step (this : recognizer) (detection : option face)
    : string * num :=
  match detectOne this detection with
  | Some result =>
      let m := matchDescriptor (db this) (descriptor result) in
      ((if accept this m then bestName m else "Unknown"), bestDist m)
  | None => ("Unknown", 0%float)
  end.

(** The calls made to [onResult] over the frames delivered. *)
Fixpoint verify_loop (this : recognizer) (is_running : bool) (ticks : list tick)
    : list (string * num) :=
  if is_running then
    match ticks with
    | [] => []
    | t :: ticks' =>
        verify_step this (frame t) :: verify_loop this (negb (stopped t)) ticks'
    end
  else [].

(** [matchDescriptor] as a method: the result and the recognizer after. *)
Definition matchDescriptor_method (desc : Float32Array) (this : recognizer)
    : match_result * recognizer :=
  (matchDescriptor (db this) desc, this).

(** ** sw.js: the [fetch] listener (lines 41-89) *)

Module ServiceWorker.

(** [new URL(req.url)]: the parts the listener reads. *)
Record URL : Type := {
  href : string;
  origin : string;
  pathname : string
}.

Record request : Type := {
  method : string;
  url : URL
}.

Record response : Type := {
  ok : bool;
  opaque : bool;
  body : string
}.

(** The cache bucket [CACHE_NAME], keyed by request URL. *)
Definition cache : Type := list (string * response).

Fixpoint cache_match (req : request) (c : cache) : option response :=
  match c with
  | [] => None
  | (k, r) :: c' =>
      if String.eqb k (href (url req)) then Some r else cache_match req c'
  end.

Definition cache_put (req : request) (res : response) (c : cache) : cache :=
  (href (url req), res)
    :: filter (fun e => negb (String.eqb (fst e) (href (url req)))) c.

(** [s.includes(sub)]. *)
Fixpoint includes (s sub : string) : bool :=
  if String.prefix sub s then true
  else match s with
       | EmptyString => false
       | String _ r => includes r sub
       end.

Definition isModelRequest (u : URL) : bool := includes (pathname u) "/models/".

(** How [fetch(req)] settles. *)
Inductive settled : Type :=
| Resolved (res : response)
| Rejected.

(** What [respondWith] receives in the end. *)
Inductive answer : Type :=
| Answer (res : response)
| Undefined
| Failed.

Record served : Type := {
  reply : answer;
  cache_after : cache;
  fetched : bool
}.

Definition cacheFirst (req : request) (c : cache) (network : settled) : served :=
  match cache_match req c with
  | Some cached => {| reply := Answer cached; cache_after := c; fetched := false |}
  | None =>
      match network with
      | Resolved res =>
          {| reply := Answer res;
             cache_after := if ok res then cache_put req res c else c;
             fetched := true |}
      | Rejected => {| reply := Failed; cache_after := c; fetched := true |}
      end
  end.

Definition staleWhileRevalidate (req : request) (c : cache) (network : settled)
    : served :=
  let cached := cache_match req c in
  let cache' :=
    match network with
    | Resolved res => if (ok res || opaque res)%bool then cache_put req res c else c
    | Rejected => c
    end in
  let networkFetch :=
    match network with
    | Resolved res => Answer res
    | Rejected => match cached with Some r => Answer r | None => Undefined end
    end in
  {| reply := match cached with Some r => Answer r | None => networkFetch end;
     cache_after := cache';
     fetched := true |}.

Inductive strategy : Type := CacheFirst | StaleWhileRevalidate.

(** What the listener does with an event: nothing, or [respondWith]. *)
Inductive handling : Type :=
| NotHandled
| RespondWith (s : strategy).

Definition on_fetch (location_origin : string) (req : request) : handling :=
  if negb (String.eqb (method req) "GET") then NotHandled
  else if String.eqb (origin (url req)) location_origin then
    if isModelRequest (url req) then RespondWith StaleWhileRevalidate
    else RespondWith CacheFirst
  else RespondWith StaleWhileRevalidate.

Definition run (s : strategy) : request -> cache -> settled -> served :=
  match s with
  | CacheFirst => cacheFirst
  | StaleWhileRevalidate => staleWhileRevalidate
  end.

End ServiceWorker.

(** ** Sample inputs *)

Definition alice_bob : store :=
  [("Alice", [[0.25%float]]); ("Bob", [[0.5%float]])].

(** A recognizer whose threshold and margin sit exactly on the distances of
    [alice_bob] from the origin. *)
Definition boundary_recognizer : recognizer :=
  setThresholds (Some 0.25%float) (Some 0.25%float)
    (default_recognizer alice_bob None).

Definition front_face (descriptor : Float32Array) : face :=
  {| box_width := 200%float; score := 0.9%float; descriptor := descriptor |}.

(** Alice enrolled alone, with the same sample twice. *)
Definition alice_twice : store :=
  [("Alice", [[0.5%float; 0.25%float]; [0.5%float; 0.25%float]])].

(** One frame with a usable face, after which [stop] is called. *)
Definition one_good_frame : list tick :=
  [{| frame := Some (front_face [0.75%float]); stopped := true |}].

(** Frames without a usable face (none, then one too small), then [stop]. *)
Definition no_good_frame : list tick :=
  [{| frame := None; stopped := false |};
   {| frame := Some {| box_width := 50%float; score := 0.9%float;
                       descriptor := [0.75%float] |};
      stopped := true |}].

(** ** Statements about numbers *)

(** [x <= y] on the values of the binary64 format. *)
Definition SFle (x y : spec_float) : Prop :=
  SFcompare x y = Some Lt \/ SFcompare x y = Some Eq.

Definition fle (x y : num) : Prop := (x <=? y)%float = true.
Definition flt (x y : num) : Prop := (x <? y)%float = true.
Definition not_nan (x : num) : Prop := is_nan x = false.

(** Two tables with the same names in the same order and, vector by vector,
    numerically equal elements. *)
Definition same_numbers (d d' : store) : Prop :=
  Forall2
    (fun m m' =>
       fst m = fst m'
       /\ Forall2 (Forall2 (fun x y : num => (x =? y)%float = true)) (snd m) (snd m'))
    d d'.

(** Every element of every vector of the table is a finite binary32 value. *)
Definition finite_float32 (d : store) : Prop :=
  Forall
    (fun m => Forall (Forall (fun x => is_finite x = true /\ is_float32 x)) (snd m))
    d.

(** ** Statements about the outer loop of [matchDescriptor] *)

(** [second] is the least person-best among [others]. *)
Definition least_of (desc : Float32Array) (others : store) (second : num) : Prop :=
  (forall e, In e others -> fle second (person_best desc (snd e)))
  /\ (second = POSITIVE_INFINITY
      \/ exists e, In e others /\ person_best desc (snd e) = second).

(** What the loop has established once it has gone through the entries [p]:
    nobody is within reach yet, or [bestName] is the first person at the
    least person-best and [secondBest] is the least among the others. *)
Definition top_two (desc : Float32Array) (p : store) (r : match_result) : Prop :=
  (bestName r = "Unknown"
   /\ bestDist r = POSITIVE_INFINITY
   /\ secondBest r = POSITIVE_INFINITY
   /\ forall e, In e p -> person_best desc (snd e) = POSITIVE_INFINITY)
  \/ exists pre l post,
       p = pre ++ (bestName r, l) :: post
       /\ person_best desc l = bestDist r
       /\ flt (bestDist r) POSITIVE_INFINITY
       /\ (forall e, In e pre -> flt (bestDist r) (person_best desc (snd e)))
       /\ (forall e, In e post -> fle (bestDist r) (person_best desc (snd e)))
       /\ least_of desc (pre ++ post) (secondBest r).

(** ** face-api.js: the state of the enrollment loop *)

(** The descriptor a frame contributes to an enrollment, if any. *)
Definition usable (this : recognizer) (t : tick) : list Float32Array :=
  match detectOne this (frame t) with
  | Some result => [descriptor result]
  | None => []
  end.

(** What holds of the state of the enrollment loop at the head of every
    turn: the pose count stays below the samples asked per pose (at least
    one), the descriptors collected are those of the poses done plus the
    pose count, and [onProgress] was called once per descriptor. *)
Definition enroll_inv (this : recognizer) (e : enrollment) : Prop :=
  (0 <= poseCount e < Z.max 1 (samplesPerPose this))%Z
  /\ Z.of_nat (List.length (collected e))
     = (Z.of_nat (poseIdx e) * Z.max 1 (samplesPerPose this) + poseCount e)%Z
  /\ poseIdx e <= List.length (poseInstructions this)
  /\ (poseIdx e = List.length (poseInstructions this) -> poseCount e = 0%Z)
  /\ map snd (progress e) = seq 1 (List.length (collected e))
  /\ Forall
       (fun p =>
          fst (fst p) < List.length (poseInstructions this)
          /\ (1 <= snd (fst p) <= Z.max 1 (samplesPerPose this))%Z)
       (progress e).

(** ** More sample inputs *)

Definition no_good_frame_unstopped : list tick :=
  map (fun t => {| frame := frame t; stopped := false |}) no_good_frame.

(** Two frames without a usable face, then a usable one and [stop]. *)
Definition no_good_frame_then_good : list tick := no_good_frame_unstopped ++ one_good_frame.

(** Fifteen usable frames. *)
Definition fifteen_frames : list tick :=
  map (fun x => {| frame := Some (front_face [x]); stopped := false |})
    [1; 2; 3; 4; 5; 6; 7; 8; 9; 10; 11; 12; 13; 14; 15]%float.

(** ** sw.js: [install] and [activate] (lines 2-38) *)

Module ServiceWorkerLife.
Import ServiceWorker.

Definition CACHE_NAME : string := "face-attendance-v1".

Definition APP_SHELL : list string :=
  ["./";
   "./face.html";
   "./face-api.js";
   "./vendor/face-api.min.js";
   "./manifest.webmanifest";
   "./style.css";
   "./icons/apple-touch-icon.png";
   "./icons/icon-192.png";
   "./icons/icon-256.png";
   "./icons/icon-384.png";
   "./icons/icon-512.png";
   "https://cdn.jsdelivr.net/npm/face-api.js@0.22.2/dist/face-api.min.js"].

(** [caches]: the buckets by name, in the order [caches.keys()] lists them. *)
Definition cache_storage : Type := list (string * cache).

Fixpoint caches_get (name : string) (cs : cache_storage) : option cache :=
  match cs with
  | [] => None
  | (k, c) :: cs' => if String.eqb k name then Some c else caches_get name cs'
  end.

Fixpoint caches_set (name : string) (c : cache) (cs : cache_storage)
    : cache_storage :=
  match cs with
  | [] => [(name, c)]
  | (k, c0) :: cs' =>
      if String.eqb k name then (k, c) :: cs' else (k, c0) :: caches_set name c cs'
  end.

(** [caches.open(name)]: the bucket, created empty when there is none. *)
Definition caches_open (name : string) (cs : cache_storage)
    : cache * cache_storage :=
  match caches_get name cs with
  | Some c => (c, cs)
  | None => ([], caches_set name [] cs)
  end.

Fixpoint distinct (l : list string) : bool :=
  match l with
  | [] => true
  | x :: r => negb (existsb (String.eqb x) r) && distinct r
  end.

Section Install.
(** The URL an entry of [APP_SHELL] denotes from the worker's location. *)
Variable resolve : string -> URL.
(** How the network answers a request at the time of the installation. *)
Variable network : request -> settled.

Definition request_of_entry (entry : string) : request :=
  {| method := "GET"; url := resolve entry |}.

(** Whether every resource of the list is fetched with an [ok] response. *)
Definition all_ok (urls : list string) : bool :=
  forallb
    (fun entry =>
       match network (request_of_entry entry) with
       | Resolved res => ok res
       | Rejected => false
       end) urls.

(** [cache.addAll(urls)]: every resource is fetched and, if all the
    responses are [ok], stored; otherwise, or when two entries denote the
    same URL, nothing is stored and the call throws. *)
Definition addAll (urls : list string) (c : cache) : completion cache :=
  if negb (distinct (map (fun entry => href (resolve entry)) urls)) then
    Throw (Error "InvalidStateError")
  else if all_ok urls then
    Return
      (fold_left
         (fun c entry =>
            match network (request_of_entry entry) with
            | Resolved res => cache_put (request_of_entry entry) res c
            | Rejected => c
            end) urls c)
  else Throw TypeError.

(** The [install] listener: the buckets it leaves. *)
Definition install (cs : cache_storage) : cache_storage :=
  let '(c, cs1) := caches_open CACHE_NAME cs in
  match addAll APP_SHELL c with
  | Return c' => caches_set CACHE_NAME c' cs1
  | Throw _ => cs1
  end.
End Install.

(** The [activate] listener: the buckets it leaves. *)
Definition activate (cs : cache_storage) : cache_storage :=
  filter (fun b => String.eqb (fst b) CACHE_NAME) cs.

(** The bucket the [fetch] listener works on. *)
Definition current_cache (cs : cache_storage) : cache :=
  fst (caches_open CACHE_NAME cs).

(** A page of the shell, and the request for it. *)
Definition page_request : request :=
  {| method := "GET";
     url := {| href := "https://face.example/face.html";
               origin := "https://face.example";
               pathname := "/face.html" |} |}.

Definition page_response : response :=
  {| ok := true; opaque := false; body := "<!doctype html>" |}.

Definition weights_request : request :=
  {| method := "GET";
     url := {| href := "https://face.example/models/face_recognition_model-shard1";
               origin := "https://face.example";
               pathname := "/models/face_recognition_model-shard1" |} |}.

Definition old_weights : response :=
  {| ok := true; opaque := false; body := "weights v1" |}.

Definition new_weights : response :=
  {| ok := true; opaque := false; body := "weights v2" |}.

(** A stand-in for the resolution of a shell entry, for a worker at
    https://face.example/: the entry put after the origin. *)
Definition at_face_example (entry : string) : URL :=
  {| href := ("https://face.example/" ++ entry)%string;
     origin := "https://face.example";
     pathname := ("/" ++ entry)%string |}.

End ServiceWorkerLife.

(* ================================================================= *)
(** * Part II: properties *)
(* ================================================================= *)

(** ** Order of the numbers *)


Ltac split_compare :=
  repeat match goal with
  | H : context [Pos.compare_cont Eq ?a ?b] |- _ =>
      change (Pos.compare_cont Eq a b) with (Pos.compare a b) in H
  | |- context [Pos.compare_cont Eq ?a ?b] =>
      change (Pos.compare_cont Eq a b) with (Pos.compare a b)
  end;
  repeat match goal with
  | H : context [Z.compare ?a ?b] |- _ => destruct (Z.compare_spec a b); simpl in H
  | H : context [Pos.compare ?a ?b] |- _ => destruct (Pos.compare_spec a b); simpl in H
  | |- context [Z.compare ?a ?b] => destruct (Z.compare_spec a b); simpl
  | |- context [Pos.compare ?a ?b] => destruct (Pos.compare_spec a b); simpl
  end.

Lemma SFcompare_antisym (x y : spec_float) :
  SFcompare y x = option_map CompOpp (SFcompare x y).
Proof.
  destruct x as [[]|[]| |[] mx ex], y as [[]|[]| |[] my ey]; simpl; try reflexivity.
  all: rewrite (Z.compare_antisym ex ey);
    change (Pos.compare_cont Eq my mx) with (Pos.compare my mx);
    change (Pos.compare_cont Eq mx my) with (Pos.compare mx my);
    rewrite (Pos.compare_antisym mx my);
    destruct (Z.compare ex ey); simpl; try reflexivity;
    destruct (Pos.compare mx my); reflexivity.
Qed.

Lemma SFcompare_refl (x : spec_float) :
  x <> S754_nan -> SFcompare x x = Some Eq.
Proof.
  destruct x as [[]|[]| |[] m e]; simpl; try congruence; intros _;
    rewrite Z.compare_refl, Pos.compare_cont_refl; reflexivity.
Qed.

Lemma SFle_trans (x y z : spec_float) : SFle x y -> SFle y z -> SFle x z.
Proof.
  unfold SFle.
  destruct x as [[]|[]| |[] mx ex], y as [[]|[]| |[] my ey], z as [[]|[]| |[] mz ez];
    simpl; intros [H1|H1] [H2|H2]; try discriminate; auto.
  all: try (left; reflexivity).
  all: split_compare; try discriminate; subst; try lia; auto.
Qed.


Lemma fle_SFle (x y : num) : fle x y <-> SFle (Prim2SF x) (Prim2SF y).
Proof.
  unfold fle, SFle. rewrite FloatAxioms.leb_spec. unfold SFleb.
  destruct (SFcompare _ _) as [[]|]; intuition congruence.
Qed.

Lemma flt_SFlt (x y : num) : flt x y <-> SFcompare (Prim2SF x) (Prim2SF y) = Some Lt.
Proof.
  unfold flt. rewrite FloatAxioms.ltb_spec. unfold SFltb.
  destruct (SFcompare _ _) as [[]|]; intuition congruence.
Qed.

Lemma not_nan_SF (x : num) : not_nan x <-> Prim2SF x <> S754_nan.
Proof.
  unfold not_nan, is_nan. rewrite FloatAxioms.eqb_spec. unfold SFeqb. split.
  - intros H E. rewrite E in H. discriminate.
  - intros H. rewrite (SFcompare_refl _ H). reflexivity.
Qed.

Lemma SFcompare_nan_l (x y : spec_float) c : SFcompare x y = Some c -> x <> S754_nan.
Proof. intros H E. subst. discriminate. Qed.

Lemma SFcompare_nan_r (x y : spec_float) c : SFcompare x y = Some c -> y <> S754_nan.
Proof. intros H E. subst. destruct x; discriminate. Qed.

Lemma flt_fle (x y : num) : flt x y -> fle x y.
Proof. rewrite flt_SFlt, fle_SFle. unfold SFle. auto. Qed.

Lemma flt_not_nan_l (x y : num) : flt x y -> not_nan x.
Proof. rewrite flt_SFlt, not_nan_SF. apply SFcompare_nan_l. Qed.

Lemma flt_not_nan_r (x y : num) : flt x y -> not_nan y.
Proof. rewrite flt_SFlt, not_nan_SF. apply SFcompare_nan_r. Qed.

Lemma fle_refl (x : num) : not_nan x -> fle x x.
Proof.
  rewrite not_nan_SF, fle_SFle. intros H. right. now apply SFcompare_refl.
Qed.

Lemma fle_trans (x y z : num) : fle x y -> fle y z -> fle x z.
Proof. rewrite !fle_SFle. apply SFle_trans. Qed.

Lemma SFcompare_total (x y : spec_float) :
  x <> S754_nan -> y <> S754_nan -> exists c, SFcompare x y = Some c.
Proof.
  destruct x as [[]|[]| |[] mx ex], y as [[]|[]| |[] my ey]; simpl;
    intros; try congruence; eauto.
Qed.

(** The [else] of [if (a < b)]: without NaN, [b <= a]. *)
Lemma not_flt_fle (x y : num) :
  not_nan x -> not_nan y -> (x <? y)%float = false -> fle y x.
Proof.
  rewrite !not_nan_SF, fle_SFle, FloatAxioms.ltb_spec. unfold SFltb, SFle.
  intros Hx Hy H. rewrite SFcompare_antisym.
  destruct (SFcompare_total _ _ Hx Hy) as [c Hc]. rewrite Hc in *.
  destruct c; simpl; auto. discriminate.
Qed.

Lemma flt_irrefl_fle (x y : num) : flt x y -> fle y x -> False.
Proof.
  rewrite flt_SFlt, fle_SFle. unfold SFle. rewrite (SFcompare_antisym (Prim2SF x)).
  intros ->. simpl. intros [H|H]; discriminate.
Qed.

Lemma Prim2SF_infinity : Prim2SF infinity = S754_infinity false.
Proof. reflexivity. Qed.

Lemma fle_infinity (x : num) : not_nan x -> fle x POSITIVE_INFINITY.
Proof.
  rewrite not_nan_SF, fle_SFle. unfold POSITIVE_INFINITY. rewrite Prim2SF_infinity.
  unfold SFle. destruct (Prim2SF x) as [[]|[]| |[] m e]; simpl; intros; auto; congruence.
Qed.

(** A number that is not below infinity is NaN or infinity itself. *)
Lemma not_flt_infinity (x : num) :
  not_nan x -> (x <? POSITIVE_INFINITY)%float = false -> x = POSITIVE_INFINITY.
Proof.
  rewrite not_nan_SF, FloatAxioms.ltb_spec. unfold POSITIVE_INFINITY, SFltb.
  rewrite Prim2SF_infinity. intros Hx H. apply Prim2SF_inj. rewrite Prim2SF_infinity.
  destruct (Prim2SF x) as [[]|[]| |[] m e]; simpl in *; congruence.
Qed.

Lemma not_nan_infinity : not_nan POSITIVE_INFINITY.
Proof. reflexivity. Qed.


Lemma SFlt_le_trans (x y z : spec_float) :
  SFcompare x y = Some Lt -> SFle y z -> SFcompare x z = Some Lt.
Proof.
  unfold SFle.
  destruct x as [[]|[]| |[] mx ex], y as [[]|[]| |[] my ey], z as [[]|[]| |[] mz ez];
    simpl; intros H1 [H2|H2]; try discriminate; auto.
  all: split_compare; try discriminate; subst; try lia; auto.
Qed.

Lemma flt_fle_trans (x y z : num) : flt x y -> fle y z -> flt x z.
Proof. rewrite !flt_SFlt, fle_SFle. apply SFlt_le_trans. Qed.

(** ** [person_best] *)

Section Matching.
Variable desc : Float32Array.

Let dist (stored : Float32Array) : num := euclidean desc stored.
Let keep (personBest : num) (stored : Float32Array) : num :=
  if (dist stored <? personBest)%float then dist stored else personBest.
Let pb (e : string * list Float32Array) : num := person_best desc (snd e).

Lemma keep_not_nan (a : num) (s : Float32Array) : not_nan a -> not_nan (keep a s).
Proof.
  unfold keep. intros Ha. destruct (dist s <? a)%float eqn:E; auto.
  now apply flt_not_nan_l with a.
Qed.

Lemma keep_fle (a : num) (s : Float32Array) : not_nan a -> fle (keep a s) a.
Proof.
  unfold keep. intros Ha. destruct (dist s <? a)%float eqn:E.
  - now apply flt_fle.
  - now apply fle_refl.
Qed.

Lemma fold_keep_not_nan (l : list Float32Array) (a : num) :
  not_nan a -> not_nan (fold_left keep l a).
Proof.
  revert a. induction l as [|s l IH]; simpl; intros a Ha; auto.
  apply IH. now apply keep_not_nan.
Qed.

Lemma fold_keep_fle (l : list Float32Array) (a : num) :
  not_nan a -> fle (fold_left keep l a) a.
Proof.
  revert a. induction l as [|s l IH]; simpl; intros a Ha.
  - now apply fle_refl.
  - apply fle_trans with (keep a s).
    + apply IH. now apply keep_not_nan.
    + now apply keep_fle.
Qed.

(** No stored descriptor is closer than the value the loop ends with. *)
Lemma fold_keep_lower (l : list Float32Array) (a : num) (s : Float32Array) :
  not_nan a -> In s l -> (dist s <? fold_left keep l a)%float = false.
Proof.
  revert a. induction l as [|s' l IH]; simpl; intros a Ha []; [subst s'|auto using keep_not_nan].
  destruct (dist s <? fold_left keep l (keep a s))%float eqn:E; auto.
  exfalso. assert (H : flt (dist s) (keep a s)).
  { apply flt_fle_trans with (fold_left keep l (keep a s)); auto.
    apply fold_keep_fle. now apply keep_not_nan. }
  unfold keep in H. destruct (dist s <? a)%float eqn:F.
  - apply (flt_irrefl_fle _ _ H). apply fle_refl. now apply flt_not_nan_l with a.
  - unfold flt in H. congruence.
Qed.

Lemma fold_keep_attained (l : list Float32Array) (a : num) :
  fold_left keep l a = a \/ exists s, In s l /\ dist s = fold_left keep l a.
Proof.
  revert a. induction l as [|s l IH]; simpl; intros a; auto.
  destruct (IH (keep a s)) as [H|[s' [Hin H]]].
  - rewrite H. unfold keep. destruct (dist s <? a)%float; eauto.
  - right. eauto.
Qed.

Lemma person_best_not_nan (l : list Float32Array) : not_nan (person_best desc l).
Proof. apply fold_keep_not_nan, not_nan_infinity. Qed.

Lemma person_best_lower (l : list Float32Array) (s : Float32Array) :
  In s l -> (euclidean desc s <? person_best desc l)%float = false.
Proof. apply fold_keep_lower, not_nan_infinity. Qed.

Lemma person_best_attained (l : list Float32Array) :
  person_best desc l = POSITIVE_INFINITY
  \/ exists s, In s l /\ euclidean desc s = person_best desc l.
Proof. apply fold_keep_attained. Qed.
End Matching.

(** ** The top two of [matchDescriptor] *)

Section TopTwo.
Variable desc : Float32Array.

Local Abbreviation pb e := (person_best desc (snd e)).

Lemma pb_not_nan (e : string * list Float32Array) : not_nan (pb e).
Proof. apply person_best_not_nan. Qed.

Lemma top_two_not_nan (p : store) (r : match_result) :
  top_two desc p r -> not_nan (bestDist r) /\ not_nan (secondBest r).
Proof.
  intros [(_ & -> & -> & _)|(pre & l & post & _ & <- & _ & _ & _ & _ & [->|(e & _ & <-)])];
    auto using not_nan_infinity, person_best_not_nan, pb_not_nan.
Qed.

(** Every person seen so far is at least as far as the best. *)
Lemma top_two_lower (p : store) (r : match_result) :
  top_two desc p r -> forall e, In e p -> fle (bestDist r) (pb e).
Proof.
  intros [(_ & -> & _ & H)|(pre & l & post & -> & Hl & _ & Hpre & Hpost & _)] e He.
  - rewrite (H e He). apply fle_refl, not_nan_infinity.
  - apply in_app_or in He. destruct He as [He|[<-|He]]; auto using flt_fle.
    simpl. rewrite Hl. apply fle_refl. rewrite <- Hl.
    apply person_best_not_nan.
Qed.

Lemma top_two_ordered (p : store) (r : match_result) :
  top_two desc p r -> fle (bestDist r) (secondBest r).
Proof.
  intros H. pose proof (top_two_lower p r H) as Hlow. destruct H as [(_ & -> & -> & _)|H].
  - apply fle_refl, not_nan_infinity.
  - destruct H as (pre & l & post & -> & Hl & _ & _ & _ & _ & [->|(e & He & <-)]).
    + apply fle_infinity. rewrite <- Hl. apply person_best_not_nan.
    + apply Hlow. apply in_app_or in He. apply in_or_app. simpl. tauto.
Qed.

Lemma top_two_start : top_two desc [] no_match.
Proof. left. simpl. intuition. Qed.

Lemma top_two_step (p : store) (r : match_result) (e : string * list Float32Array) :
  top_two desc p r -> top_two desc (p ++ [e]) (top2 desc r e).
Proof.
  intros H. pose proof (top_two_lower p r H) as Hlow.
  pose proof (top_two_not_nan p r H) as [Hb Hs].
  pose proof (top_two_ordered p r H) as Hord.
  destruct e as [name l]. unfold top2.
  destruct (person_best desc l <? bestDist r)%float eqn:E1;
    [|destruct (person_best desc l <? secondBest r)%float eqn:E2].
  - (* a new best: the old best becomes second *)
    right. exists p, l, []. simpl. repeat split; auto.
    + apply flt_fle_trans with (bestDist r); auto. now apply fle_infinity.
    + intros e He. apply flt_fle_trans with (bestDist r); auto.
    + intros e [].
    + rewrite app_nil_r. exact Hlow.
    + rewrite app_nil_r.
      destruct H as [(_ & -> & _)|(pre & l0 & post & -> & Hl & _)]; auto.
      right. exists (bestName r, l0). split; auto. apply in_or_app. simpl. auto.
  - (* a new second *)
    assert (Hge : fle (bestDist r) (person_best desc l))
      by (apply not_flt_fle; auto using person_best_not_nan).
    destruct H as [(_ & Hbest & Hsec & _)|(pre & l0 & post & -> & Hl & Hfin & Hpre & Hpost & Hsnd & _)].
    + rewrite Hbest in E1. rewrite Hsec in E2. congruence.
    + right. exists pre, l0, (post ++ [(name, l)]). simpl.
      split; [now rewrite <- app_assoc|]. repeat split; auto.
      * intros e He. apply in_app_or in He. destruct He as [He|[<-|[]]]; auto.
      * intros e He. rewrite app_assoc in He. apply in_app_or in He.
        destruct He as [He|[<-|[]]].
        -- apply fle_trans with (secondBest r); auto. now apply flt_fle.
        -- apply fle_refl, person_best_not_nan.
      * right. exists (name, l). split; auto. rewrite app_assoc.
        apply in_or_app. simpl. auto.
  - (* neither *)
    assert (Hge : fle (bestDist r) (person_best desc l))
      by (apply not_flt_fle; auto using person_best_not_nan).
    assert (Hge2 : fle (secondBest r) (person_best desc l))
      by (apply not_flt_fle; auto using person_best_not_nan).
    destruct H as [(Hn & Hbest & Hsec & Hall)|(pre & l0 & post & -> & Hl & Hfin & Hpre & Hpost & Hsnd & Hatt)].
    + left. repeat split; auto. intros e He. apply in_app_or in He.
      destruct He as [He|[<-|[]]]; auto. simpl.
      apply not_flt_infinity; auto using person_best_not_nan.
      now rewrite <- Hbest.
    + right. exists pre, l0, (post ++ [(name, l)]). simpl.
      split; [now rewrite <- app_assoc|]. repeat split; auto.
      * intros e He. apply in_app_or in He. destruct He as [He|[<-|[]]]; auto.
      * intros e He. rewrite app_assoc in He. apply in_app_or in He.
        destruct He as [He|[<-|[]]]; auto.
      * destruct Hatt as [->|(e & He & <-)]; auto.
        right. exists e. split; auto. rewrite app_assoc. apply in_or_app. auto.
Qed.

Lemma top_two_fold (rest p : store) (r : match_result) :
  top_two desc p r -> top_two desc (p ++ rest) (fold_left (top2 desc) rest r).
Proof.
  revert p r. induction rest as [|e rest IH]; simpl; intros p r H.
  - now rewrite app_nil_r.
  - replace (p ++ e :: rest) with ((p ++ [e]) ++ rest) by now rewrite <- app_assoc.
    apply IH. now apply top_two_step.
Qed.

Lemma matchDescriptor_top_two (d : store) : top_two desc d (matchDescriptor d desc).
Proof. apply (top_two_fold d [] no_match top_two_start). Qed.
End TopTwo.

(** ** Equal numbers, zero and the sign of a square root *)

Lemma feq_fle (x y : num) : (x =? y)%float = true -> fle x y.
Proof.
  rewrite FloatAxioms.eqb_spec, fle_SFle. unfold SFeqb, SFle.
  destruct (SFcompare _ _) as [[]|]; auto; discriminate.
Qed.

Lemma feq_fge (x y : num) : (x =? y)%float = true -> fle y x.
Proof.
  rewrite FloatAxioms.eqb_spec, fle_SFle. unfold SFeqb, SFle.
  rewrite (SFcompare_antisym (Prim2SF x)).
  destruct (SFcompare _ _) as [[]|]; simpl; auto; discriminate.
Qed.

Lemma is_zero_SF (z : num) : is_zero z = true <-> exists s, Prim2SF z = S754_zero s.
Proof.
  unfold is_zero. rewrite FloatAxioms.eqb_spec. unfold SFeqb.
  change (Prim2SF PrimFloat.zero) with (S754_zero false).
  destruct (Prim2SF z) as [s|[]| |[] m e]; simpl; split;
    try discriminate; eauto; intros [s' H]; discriminate.
Qed.

Lemma binary_round_aux_sign (sx : bool) (mx ex : Z) (lx : location) :
  match binary_round_aux prec emax sx mx ex lx with
  | S754_zero s | S754_infinity s | S754_finite s _ _ => s = sx
  | S754_nan => True
  end.
Proof.
  unfold binary_round_aux.
  destruct (shr_fexp prec emax mx ex lx) as [mrs' e'].
  destruct (shr_fexp prec emax _ e' loc_Exact) as [mrs'' e''].
  destruct (shr_m mrs''); auto.
  destruct (e'' <=? emax - prec)%Z; auto.
Qed.

(** A square root is never below zero. *)
Lemma sqrt_not_below_zero (s z : num) :
  is_zero z = true -> (sqrt s <? z)%float = false.
Proof.
  rewrite is_zero_SF. intros [sz Hz].
  rewrite FloatAxioms.ltb_spec, FloatAxioms.sqrt_spec, Hz. unfold SFltb, SF64sqrt, SFsqrt.
  destruct (Prim2SF s) as [[]|[]| |[] m e]; simpl; auto.
  destruct (SFsqrt_core_binary prec emax (Z.pos m) e) as [[mz ez] lz].
  pose proof (binary_round_aux_sign false mz ez lz) as H.
  destruct (binary_round_aux prec emax false mz ez lz) as [?|?| |? ? ?];
    simpl; auto; subst; reflexivity.
Qed.

Lemma euclidean_not_below_zero (a b : Float32Array) (z : num) :
  is_zero z = true -> (euclidean a b <? z)%float = false.
Proof. apply sqrt_not_below_zero. Qed.

(** Between zero and anything not below zero there is only zero. *)
Lemma zero_squeeze (x z : num) :
  is_zero z = true -> not_nan x -> (z <? x)%float = false ->
  (x <? z)%float = false -> is_zero x = true.
Proof.
  rewrite not_nan_SF, !is_zero_SF, !FloatAxioms.ltb_spec. intros [sz ->]. unfold SFltb.
  destruct (Prim2SF x) as [s|[]| |[] m e]; simpl; intros; eauto; congruence.
Qed.

Lemma zero_below_infinity (z : num) : is_zero z = true -> flt z POSITIVE_INFINITY.
Proof.
  rewrite is_zero_SF, flt_SFlt. intros [s ->]. reflexivity.
Qed.

Lemma person_best_zero (desc : Float32Array) (l : list Float32Array)
    (stored : Float32Array) :
  In stored l -> is_zero (euclidean desc stored) = true ->
  is_zero (person_best desc l) = true.
Proof.
  intros Hin Hz.
  pose proof (person_best_lower desc l stored Hin) as Hlow.
  destruct (person_best_attained desc l) as [H|(s & _ & H)].
  - rewrite H in Hlow. pose proof (zero_below_infinity _ Hz) as F.
    unfold flt in F. congruence.
  - apply zero_squeeze with (euclidean desc stored); auto.
    + apply person_best_not_nan.
    + rewrite <- H. now apply euclidean_not_below_zero.
Qed.

(** ** The name [matchDescriptor] returns *)

Lemma matchDescriptor_owner (d : store) (desc : Float32Array) :
  (bestName (matchDescriptor d desc) = "Unknown"
   /\ bestDist (matchDescriptor d desc) = POSITIVE_INFINITY)
  \/ In (bestName (matchDescriptor d desc)) (Object_keys d).
Proof.
  destruct (matchDescriptor_top_two desc d) as [(Hn & Hb & _)|(pre & l & post & Hd & _)].
  - left. auto.
  - right. rewrite Hd at 2. unfold Object_keys. rewrite map_app. apply in_or_app.
    simpl. auto.
Qed.

Lemma obj_delete_keys {A : Type} (k : string) (o : obj A) :
  ~ In k (Object_keys (obj_delete k o)).
Proof.
  unfold Object_keys, obj_delete. intros H. apply in_map_iff in H.
  destruct H as ([k' v] & Hk & Hin). apply filter_In in Hin. simpl in *. subst k'.
  destruct Hin as [_ Hneq]. rewrite String.eqb_refl in Hneq. discriminate.
Qed.

Lemma obj_get_not_in {A : Type} (k : string) (o : obj A) :
  ~ In k (Object_keys o) -> obj_get k o = None.
Proof.
  induction o as [|[k' v] o IH]; simpl; intros H; auto.
  destruct (String.eqb_spec k k') as [->|Hne]; [tauto|]. apply IH. tauto.
Qed.

Lemma verify_step_name (this : recognizer) (detection : option face) :
  fst (verify_step this detection) = "Unknown"
  \/ In (fst (verify_step this detection)) (Object_keys (db this)).
Proof.
  unfold verify_step. destruct (detectOne this detection) as [q|]; simpl; auto.
  destruct (accept this _); auto.
  destruct (matchDescriptor_owner (db this) (descriptor q)) as [[H _]|H]; auto.
Qed.

(** ** The acceptance rule *)

(** C1.  For every recognizer (store, threshold and margin) and every frame
    in which a face is detected, [verify] reports the best-matching name when
    the best distance is at most the threshold and second-best minus best is
    at least the margin, and "Unknown" otherwise; both comparisons are
    inclusive, so a best distance equal to the threshold with a gap equal to
    the margin is accepted.  The distance reported is the best distance. *)
Theorem acceptance_rule (this : recognizer) (detection query : face) :
  detectOne this (Some detection) = Some query ->
  ((bestDist (matchDescriptor (db this) (descriptor query))
      <=? distanceThreshold this)%float = true ->
   (secondBestMargin this
      <=? secondBest (matchDescriptor (db this) (descriptor query))
          - bestDist (matchDescriptor (db this) (descriptor query)))%float = true ->
   fst (verify_step this (Some detection))
   = bestName (matchDescriptor (db this) (descriptor query)))
  /\ ((bestDist (matchDescriptor (db this) (descriptor query))
         <=? distanceThreshold this)%float = false
      \/ (secondBestMargin this
            <=? secondBest (matchDescriptor (db this) (descriptor query))
                - bestDist (matchDescriptor (db this) (descriptor query)))%float = false ->
      fst (verify_step this (Some detection)) = "Unknown")
  /\ ((bestDist (matchDescriptor (db this) (descriptor query))
         =? distanceThreshold this)%float = true ->
      (secondBest (matchDescriptor (db this) (descriptor query))
         - bestDist (matchDescriptor (db this) (descriptor query))
         =? secondBestMargin this)%float = true ->
      fst (verify_step this (Some detection))
      = bestName (matchDescriptor (db this) (descriptor query)))
  /\ (bestName (matchDescriptor (db this) (descriptor query)) <> "Unknown" ->
      (fst (verify_step this (Some detection))
       = bestName (matchDescriptor (db this) (descriptor query))
       <-> (bestDist (matchDescriptor (db this) (descriptor query))
              <=? distanceThreshold this)%float = true
           /\ (secondBestMargin this
                 <=? secondBest (matchDescriptor (db this) (descriptor query))
                     - bestDist (matchDescriptor (db this) (descriptor query)))%float
              = true))
  /\ snd (verify_step this (Some detection))
     = bestDist (matchDescriptor (db this) (descriptor query)).
Proof.
  intros Hq. unfold verify_step. rewrite Hq. unfold accept, geb. simpl.
  set (m := matchDescriptor (db this) (descriptor query)).
  split; [|split; [|split; [|split]]].
  - intros -> ->. reflexivity.
  - intros [->| ->]; [reflexivity|]. now rewrite andb_false_r.
  - intros H1 H2. apply feq_fle in H1. apply feq_fge in H2.
    unfold fle in *. now rewrite H1, H2.
  - intros Hn. split.
    + destruct (bestDist m <=? distanceThreshold this)%float;
        destruct (secondBestMargin this <=? secondBest m - bestDist m)%float;
        simpl; auto; congruence.
    + intros [-> ->]. reflexivity.
  - reflexivity.
Qed.

Lemma acceptance_rule_witness :
  fst (verify_step boundary_recognizer (Some (front_face [0%float]))) = "Alice".
Proof.
  apply (proj1 (acceptance_rule boundary_recognizer (front_face [0%float])
                  (front_face [0%float]) eq_refl)); reflexivity.
Defined.

(** The scenario of the specification: Alice at 0.3 and Bob at 0.32 are too
    close to each other for a margin of 0.05. *)
Example ambiguous_match :
  verify_step
    (default_recognizer
       [("Alice", [[fround 0.3%float]]); ("Bob", [[fround 0.32%float]])] None)
    (Some (front_face [0%float]))
  = ("Unknown", fround 0.3%float).
Proof. reflexivity. Qed.

(** ** The top two *)

(** C2.  For every store and query, [matchDescriptor] returns the least
    person-best as [bestDist], the first person at that distance as
    [bestName], and the least person-best among the other persons as
    [secondBest], where a person-best is the least distance from the query
    to that person's descriptors (infinity when none compares below it).
    [secondBest] is thus infinity or another person's person-best: further
    descriptors of the best person never reach it.  When no person-best is
    below infinity there is no owner and the name stays "Unknown". *)
Theorem matchDescriptor_top_two_spec (d : store) (desc : Float32Array) :
  (forall e, In e d ->
     (forall stored, In stored (snd e) ->
        (euclidean desc stored <? person_best desc (snd e))%float = false)
     /\ (person_best desc (snd e) = POSITIVE_INFINITY
         \/ exists stored, In stored (snd e)
              /\ euclidean desc stored = person_best desc (snd e)))
  /\ (forall e, In e d ->
        (bestDist (matchDescriptor d desc) <=? person_best desc (snd e))%float = true)
  /\ (forall e, In e d -> fst e <> bestName (matchDescriptor d desc) ->
        (secondBest (matchDescriptor d desc) <=? person_best desc (snd e))%float = true)
  /\ ((bestName (matchDescriptor d desc) = "Unknown"
       /\ bestDist (matchDescriptor d desc) = POSITIVE_INFINITY
       /\ secondBest (matchDescriptor d desc) = POSITIVE_INFINITY
       /\ forall e, In e d -> person_best desc (snd e) = POSITIVE_INFINITY)
      \/ exists pre l post,
           d = pre ++ (bestName (matchDescriptor d desc), l) :: post
           /\ person_best desc l = bestDist (matchDescriptor d desc)
           /\ (forall e, In e pre ->
                 (bestDist (matchDescriptor d desc) <? person_best desc (snd e))%float
                 = true)
           /\ (forall e, In e (pre ++ post) ->
                 (secondBest (matchDescriptor d desc) <=? person_best desc (snd e))%float
                 = true)
           /\ (secondBest (matchDescriptor d desc) = POSITIVE_INFINITY
               \/ exists e, In e (pre ++ post)
                    /\ person_best desc (snd e) = secondBest (matchDescriptor d desc))).
Proof.
  pose proof (matchDescriptor_top_two desc d) as H.
  split; [|split; [|split]].
  - intros e _. split.
    + intros stored Hs. now apply person_best_lower.
    + apply person_best_attained.
  - apply (top_two_lower desc d _ H).
  - intros e He Hne.
    destruct H as [(_ & _ & Hs & Hall)|(pre & l & post & Hd & _ & _ & _ & _ & Hleast & _)].
    + rewrite Hs, (Hall e He). reflexivity.
    + apply Hleast. rewrite Hd in He. apply in_app_or in He. apply in_or_app.
      destruct He as [He|[He|He]]; auto. subst e. simpl in Hne. congruence.
  - destruct H as [H|(pre & l & post & Hd & Hl & _ & Hpre & _ & Hleast & Hatt)].
    + left. exact H.
    + right. exists pre, l, post. repeat split; auto.
Qed.

Example top_two_of_three :
  matchDescriptor
    [("Alice", [[3%float]; [0.5%float]]); ("Bob", [[0.25%float]; [0.375%float]]);
     ("Carol", [[2%float]])]
    [0%float]
  = {| bestName := "Bob"; bestDist := 0.25%float; secondBest := 0.5%float |}.
Proof. reflexivity. Qed.

(** C10.  For every store and query the result of [matchDescriptor] has
    [bestDist <= secondBest], and the call leaves the recognizer, its table
    included, as it was. *)
Theorem matchDescriptor_ordered_pure (this : recognizer) (desc : Float32Array) :
  (bestDist (fst (matchDescriptor_method desc this))
     <=? secondBest (fst (matchDescriptor_method desc this)))%float = true
  /\ snd (matchDescriptor_method desc this) = this
  /\ db (snd (matchDescriptor_method desc this)) = db this.
Proof.
  simpl. repeat split.
  apply (top_two_ordered desc (db this)), matchDescriptor_top_two.
Qed.

(** ** A single enrolled person *)

Lemma single_person_second (name : string) (l : list Float32Array)
    (desc : Float32Array) :
  secondBest (matchDescriptor [(name, l)] desc) = POSITIVE_INFINITY.
Proof.
  unfold matchDescriptor. simpl.
  destruct (person_best desc l <? POSITIVE_INFINITY)%float; reflexivity.
Qed.

Lemma single_person_zero (name : string) (l : list Float32Array)
    (desc stored : Float32Array) :
  In stored l -> is_zero (euclidean desc stored) = true ->
  bestName (matchDescriptor [(name, l)] desc) = name
  /\ is_zero (bestDist (matchDescriptor [(name, l)] desc)) = true.
Proof.
  intros Hin Hz. pose proof (person_best_zero desc l stored Hin Hz) as H.
  pose proof (zero_below_infinity _ H) as Hlt. unfold flt in Hlt.
  unfold matchDescriptor. simpl. rewrite Hlt. simpl. auto.
Qed.

(** Under the default threshold and margin a best distance of zero with no
    competitor is accepted. *)
Lemma accept_zero_alone (this : recognizer) (m : match_result) :
  distanceThreshold this = 0.5%float -> secondBestMargin this = 0.05%float ->
  is_zero (bestDist m) = true -> secondBest m = POSITIVE_INFINITY ->
  accept this m = true.
Proof.
  intros Ht Hm Hz Hs. unfold accept, geb. rewrite Ht, Hm, Hs.
  apply is_zero_SF in Hz. destruct Hz as [s Hz].
  rewrite !FloatAxioms.leb_spec, FloatAxioms.sub_spec, Hz.
  unfold POSITIVE_INFINITY. rewrite Prim2SF_infinity. reflexivity.
Qed.

(** C3.  With exactly one enrolled person, whatever the descriptor list and
    the query, [secondBest] is positive infinity; a best distance below
    infinity is that person's and lies strictly below it.  If the query is
    at distance zero from one of that person's descriptors, the best name is
    that person, the best distance is zero, and under the default threshold
    and margin the match is accepted: [verify] reports the person. *)
Theorem single_person (name : string) (l : list Float32Array) :
  (forall desc, secondBest (matchDescriptor [(name, l)] desc) = POSITIVE_INFINITY)
  /\ (forall desc,
        (person_best desc l <? POSITIVE_INFINITY)%float = true ->
        bestDist (matchDescriptor [(name, l)] desc) = person_best desc l
        /\ (bestDist (matchDescriptor [(name, l)] desc)
              <? secondBest (matchDescriptor [(name, l)] desc))%float = true)
  /\ (forall desc stored,
        In stored l -> is_zero (euclidean desc stored) = true ->
        bestName (matchDescriptor [(name, l)] desc) = name
        /\ is_zero (bestDist (matchDescriptor [(name, l)] desc)) = true
        /\ (bestDist (matchDescriptor [(name, l)] desc)
              <? secondBest (matchDescriptor [(name, l)] desc))%float = true
        /\ forall item, accept (default_recognizer [(name, l)] item)
                          (matchDescriptor [(name, l)] desc) = true)
  /\ (forall item detection query stored,
        detectOne (default_recognizer [(name, l)] item) (Some detection) = Some query ->
        In stored l -> is_zero (euclidean (descriptor query) stored) = true ->
        fst (verify_step (default_recognizer [(name, l)] item) (Some detection)) = name
        /\ is_zero (snd (verify_step (default_recognizer [(name, l)] item)
                           (Some detection))) = true).
Proof.
  split; [|split; [|split]].
  - intros desc. apply single_person_second.
  - intros desc Hlt. unfold matchDescriptor. simpl. rewrite Hlt. simpl. auto.
  - intros desc stored Hin Hz.
    destruct (single_person_zero name l desc stored Hin Hz) as [Hn Hd].
    repeat split; auto.
    + rewrite single_person_second. now apply zero_below_infinity.
    + intros item. apply accept_zero_alone; auto. apply single_person_second.
  - intros item detection query stored Hq Hin Hz.
    destruct (single_person_zero name l (descriptor query) stored Hin Hz) as [Hn Hd].
    unfold verify_step. rewrite Hq. simpl.
    rewrite accept_zero_alone; auto. apply single_person_second.
Qed.

Lemma single_person_witness :
  fst (verify_step (default_recognizer alice_twice None)
         (Some (front_face [0.5%float; 0.25%float]))) = "Alice"
  /\ is_zero (snd (verify_step (default_recognizer alice_twice None)
                     (Some (front_face [0.5%float; 0.25%float])))) = true.
Proof.
  exact (proj2 (proj2 (proj2 (single_person "Alice"
                         [[0.5%float; 0.25%float]; [0.5%float; 0.25%float]])))
           None (front_face [0.5%float; 0.25%float])
           (front_face [0.5%float; 0.25%float])
           [0.5%float; 0.25%float] eq_refl (or_introl eq_refl) eq_refl).
Defined.

(** ** Deletion and the empty store *)

Lemma obj_get_none_keys {A : Type} (k : string) (o : obj A) :
  obj_get k o = None -> ~ In k (Object_keys o).
Proof.
  induction o as [|[k' v] o IH]; simpl; [tauto|].
  destruct (String.eqb_spec k k') as [->|Hne]; [discriminate|].
  intros H [E|Hin]; [congruence|]. now apply IH.
Qed.

(** C4.  After [delete(name)] the table has no entry for [name], and as
    long as it has none no query is matched to it: [matchDescriptor] can
    return the name only as the literal "Unknown" of a failed match, at
    infinite distance, and so can [verify].  Against an empty store
    [matchDescriptor] returns "Unknown" with [bestDist] positive infinity
    for every query. *)
Theorem delete_then_match (name : string) (this : recognizer) :
  obj_get name (db (delete name this)) = None
  /\ (forall desc,
        bestName (matchDescriptor (db (delete name this)) desc) = name ->
        name = "Unknown"
        /\ bestDist (matchDescriptor (db (delete name this)) desc) = POSITIVE_INFINITY)
  /\ (forall detection,
        fst (verify_step (delete name this) detection) = name -> name = "Unknown")
  /\ (forall later : recognizer,
        obj_get name (db later) = None ->
        (forall desc,
           bestName (matchDescriptor (db later) desc) = name ->
           name = "Unknown"
           /\ bestDist (matchDescriptor (db later) desc) = POSITIVE_INFINITY)
        /\ (forall detection,
              fst (verify_step later detection) = name -> name = "Unknown"))
  /\ (forall desc,
        bestName (matchDescriptor [] desc) = "Unknown"
        /\ bestDist (matchDescriptor [] desc) = POSITIVE_INFINITY)
  /\ (forall detection,
        db this = [] -> fst (verify_step this detection) = "Unknown").
Proof.
  assert (Hgone : obj_get name (db (delete name this)) = None)
    by (apply obj_get_not_in, obj_delete_keys).
  assert (Hlater : forall later : recognizer,
            obj_get name (db later) = None ->
            (forall desc,
               bestName (matchDescriptor (db later) desc) = name ->
               name = "Unknown"
               /\ bestDist (matchDescriptor (db later) desc) = POSITIVE_INFINITY)
            /\ (forall detection,
                  fst (verify_step later detection) = name -> name = "Unknown")).
  { intros later Hnone. apply obj_get_none_keys in Hnone. split.
    - intros desc Hn.
      destruct (matchDescriptor_owner (db later) desc) as [[Hu Hd]|Hin].
      + split; congruence.
      + rewrite Hn in Hin. contradiction.
    - intros detection Hn.
      destruct (verify_step_name later detection) as [Hu|Hin].
      + congruence.
      + rewrite Hn in Hin. contradiction. }
  split; [exact Hgone|].
  split; [exact (proj1 (Hlater _ Hgone))|].
  split; [exact (proj2 (Hlater _ Hgone))|].
  split; [exact Hlater|].
  split.
  - intros desc. split; reflexivity.
  - intros detection He.
    destruct (verify_step_name this detection) as [Hu|Hin]; auto.
    rewrite He in Hin. destruct Hin.
Qed.

Example delete_alice :
  bestName (matchDescriptor (db (delete "Alice" (default_recognizer alice_bob None)))
              [0.25%float]) = "Bob".
Proof. reflexivity. Qed.

(** ** Objects: reading after writing *)

Section ObjFacts.
Context {A : Type}.
Implicit Types (o : obj A) (k : string) (v : A).


Lemma obj_get_update_same k v o :
  obj_has k o = true -> obj_get k (obj_update k v o) = Some v.
Proof.
  induction o as [|[k' v'] o IH]; simpl; [discriminate|].
  unfold obj_has in *. simpl.
  destruct (String.eqb_spec k k') as [->|Hne]; simpl.
  - now rewrite String.eqb_refl.
  - intros H. destruct (String.eqb_spec k k'); [contradiction|]. auto.
Qed.

Lemma obj_get_update_other k k' v o :
  k' <> k -> obj_get k' (obj_update k v o) = obj_get k' o.
Proof.
  intros Hne. induction o as [|[k0 v0] o IH]; simpl; auto.
  destruct (String.eqb_spec k k0) as [->|H0]; simpl.
  - destruct (String.eqb_spec k' k0); [contradiction|reflexivity].
  - rewrite IH. reflexivity.
Qed.

Lemma obj_get_insert_same k v o :
  obj_has k o = false -> obj_get k (obj_insert k v o) = Some v.
Proof.
  induction o as [|[k' v'] o IH]; simpl.
  - now rewrite String.eqb_refl.
  - unfold obj_has in *. simpl. intros H. apply orb_false_iff in H. destruct H as [H1 H2].
    destruct (precedes k k'); simpl.
    + now rewrite String.eqb_refl.
    + rewrite H1. auto.
Qed.

Lemma obj_get_insert_other k k' v o :
  k' <> k -> obj_get k' (obj_insert k v o) = obj_get k' o.
Proof.
  intros Hne. induction o as [|[k0 v0] o IH]; simpl.
  - destruct (String.eqb_spec k' k); [contradiction|reflexivity].
  - destruct (precedes k k0); simpl.
    + destruct (String.eqb_spec k' k); [contradiction|reflexivity].
    + rewrite IH. reflexivity.
Qed.

Lemma obj_get_set_same k v o : obj_get k (obj_set k v o) = Some v.
Proof.
  unfold obj_set. destruct (obj_has k o) eqn:E.
  - now apply obj_get_update_same.
  - now apply obj_get_insert_same.
Qed.

Lemma obj_get_set_other k k' v o :
  k' <> k -> obj_get k' (obj_set k v o) = obj_get k' o.
Proof.
  intros Hne. unfold obj_set. destruct (obj_has k o).
  - now apply obj_get_update_other.
  - now apply obj_get_insert_other.
Qed.

Lemma obj_update_keys k v o : Object_keys (obj_update k v o) = Object_keys o.
Proof.
  induction o as [|[k' v'] o IH]; simpl; auto.
  destruct (String.eqb k k'); simpl; congruence.
Qed.

(** A key that belongs after all the others is appended. *)
Lemma obj_set_append k v o :
  forallb (fun k' => negb (String.eqb k k') && negb (precedes k k')) (Object_keys o) = true ->
  obj_set k v o = o ++ [(k, v)].
Proof.
  intros H. unfold obj_set.
  assert (Hhas : obj_has k o = false).
  { unfold obj_has. apply not_true_iff_false. intros Hex.
    apply existsb_exists in Hex. destruct Hex as (k' & Hin & Heq).
    rewrite forallb_forall in H. specialize (H k' Hin). rewrite Heq in H. discriminate. }
  rewrite Hhas. clear Hhas.
  induction o as [|[k' v'] o IH]; simpl in *; auto.
  apply andb_true_iff in H. destruct H as [H1 H2].
  apply andb_true_iff in H1. destruct H1 as [_ H1].
  apply negb_true_iff in H1. rewrite H1. now rewrite IH.
Qed.

Lemma obj_get_own (m : string * A) o :
  NoDup (Object_keys o) -> In m o -> obj_get (fst m) o = Some (snd m).
Proof.
  induction o as [|[k' v'] o IH]; simpl; [tauto|]. intros Hnd [<-|Hin].
  - simpl. now rewrite String.eqb_refl.
  - inversion Hnd as [|? ? Hnotin Hnd']. subst.
    destruct (String.eqb_spec (fst m) k') as [E|_]; auto.
    exfalso. apply Hnotin. rewrite <- E. unfold Object_keys. now apply in_map.
Qed.
End ObjFacts.

Lemma wf_keys_NoDup (keys : list string) : wf_keys keys = true -> NoDup keys.
Proof.
  induction keys as [|k r IH]; simpl; intros H; constructor.
  - apply andb_true_iff in H. destruct H as [H _]. rewrite forallb_forall in H.
    intros Hin. specialize (H k Hin). rewrite String.eqb_refl in H. discriminate.
  - apply IH. apply andb_true_iff in H. tauto.
Qed.

(** In keys of the shape of an object, each one belongs after those before. *)
Lemma wf_keys_app (pre : list string) (k : string) (post : list string) :
  wf_keys (pre ++ k :: post) = true ->
  forallb (fun k' => negb (String.eqb k k') && negb (precedes k k')) pre = true.
Proof.
  induction pre as [|k0 pre IH]; simpl; auto. intros H.
  apply andb_true_iff in H. destruct H as [H1 H2].
  rewrite forallb_forall in H1.
  rewrite (H1 k) by (apply in_or_app; simpl; auto). simpl. auto.
Qed.

(** Writing the entries of an object into an empty one, in order, gives the
    same entries in the same order. *)
Lemma fold_obj_set_id {A B : Type} (g : string * A -> B) (o : obj A) (acc : obj A) :
  wf_keys (Object_keys acc ++ Object_keys o) = true ->
  fold_left (fun s m => obj_set (fst m) (g m) s) o (map (fun m => (fst m, g m)) acc)
  = map (fun m => (fst m, g m)) (acc ++ o).
Proof.
  revert acc. induction o as [|m o IH]; simpl; intros acc H.
  - now rewrite app_nil_r.
  - rewrite obj_set_append.
    + specialize (IH (acc ++ [m])). rewrite map_app in IH. simpl in IH.
      rewrite IH.
      * now rewrite <- app_assoc.
      * unfold Object_keys in *. rewrite map_app. simpl. now rewrite <- app_assoc.
    + unfold Object_keys. rewrite map_map. simpl.
      apply (wf_keys_app _ _ _ H).
Qed.

(** ** Objects keep their shape *)

Lemma precedes_asym (a b : string) : precedes a b = true -> precedes b a = false.
Proof.
  unfold precedes. destruct (array_index a), (array_index b); try congruence.
  rewrite N.ltb_lt, N.ltb_ge. lia.
Qed.

Lemma precedes_trans (a b c : string) :
  precedes a b = true -> precedes b c = true -> precedes a c = true.
Proof.
  unfold precedes. destruct (array_index a), (array_index b), (array_index c);
    try congruence.
  rewrite !N.ltb_lt. lia.
Qed.

Section ObjShape.
Context {A : Type}.
Implicit Types (o : obj A) (k : string) (v : A).

Lemma obj_insert_keys k v o k' :
  In k' (Object_keys (obj_insert k v o)) <-> k' = k \/ In k' (Object_keys o).
Proof.
  induction o as [|[k0 v0] o IH]; simpl.
  - intuition.
  - destruct (precedes k k0); simpl.
    + intuition.
    + rewrite IH. intuition.
Qed.

Lemma obj_insert_wf k v o :
  wf_obj o = true -> obj_has k o = false -> wf_obj (obj_insert k v o) = true.
Proof.
  unfold wf_obj, obj_has. induction o as [|[k0 v0] o IH]; simpl; auto.
  intros Hwf Hhas. apply andb_true_iff in Hwf. destruct Hwf as [Hall Hwf].
  apply orb_false_iff in Hhas. destruct Hhas as [Hne Hhas].
  rewrite forallb_forall in Hall.
  destruct (precedes k k0) eqn:Hp; simpl.
  - rewrite String.eqb_sym, Hne, (precedes_asym _ _ Hp). simpl.
    apply andb_true_iff. split; [|apply andb_true_iff; split; auto].
    + apply forallb_forall. intros k' Hin. specialize (Hall k' Hin).
      apply andb_true_iff in Hall. destruct Hall as [_ Hall].
      apply andb_true_iff. split.
      * apply negb_true_iff. destruct (String.eqb_spec k' k) as [->|]; auto.
        assert (existsb (String.eqb k) (Object_keys o) = true); [|congruence].
        apply existsb_exists. exists k. split; auto. apply String.eqb_refl.
      * apply negb_true_iff. destruct (precedes k' k) eqn:E; auto.
        rewrite (precedes_trans _ _ _ E Hp) in Hall. discriminate.
    + apply forallb_forall. exact Hall.
  - apply andb_true_iff. split; auto.
    apply forallb_forall. intros k' Hin. apply obj_insert_keys in Hin.
    destruct Hin as [->|Hin]; auto. now rewrite Hne, Hp.
Qed.

Lemma obj_set_wf k v o : wf_obj o = true -> wf_obj (obj_set k v o) = true.
Proof.
  intros H. unfold obj_set. destruct (obj_has k o) eqn:E.
  - unfold wf_obj. now rewrite obj_update_keys.
  - now apply obj_insert_wf.
Qed.

Lemma obj_delete_wf k o : wf_obj o = true -> wf_obj (obj_delete k o) = true.
Proof.
  unfold wf_obj, obj_delete. induction o as [|[k0 v0] o IH]; simpl; auto.
  intros H. apply andb_true_iff in H. destruct H as [Hall Hwf].
  destruct (negb (String.eqb k k0)); simpl; auto.
  apply andb_true_iff. split; auto.
  rewrite forallb_forall in *. intros k' Hin. apply Hall.
  unfold Object_keys in *. apply in_map_iff in Hin. destruct Hin as (m & <- & Hm).
  apply filter_In in Hm. apply in_map. tauto.
Qed.

Lemma object_of_members_wf (members : list (string * A)) :
  wf_obj (object_of_members members) = true.
Proof.
  unfold object_of_members.
  assert (H : forall (acc : obj A), wf_obj acc = true ->
            wf_obj (fold_left (fun o m => obj_set (fst m) (snd m) o) members acc) = true).
  { induction members as [|m members IH]; simpl; auto using obj_set_wf. }
  now apply H.
Qed.
End ObjShape.

(** [replace] and [delete] leave a table of the shape of an object. *)
Lemma replace_delete_wf (name : string) (descriptors : list Float32Array)
    (this : recognizer) :
  wf_obj (db this) = true ->
  wf_obj (db (replace name descriptors this)) = true
  /\ wf_obj (db (delete name this)) = true.
Proof.
  intros H. split; simpl; [now apply obj_set_wf|now apply obj_delete_wf].
Qed.

(** ** Enrollment *)

Lemma enroll_loop_not_running (this : recognizer) (e : enrollment)
    (ticks : list tick) :
  enroll_loop this false e ticks = Some e.
Proof. destruct ticks; reflexivity. Qed.

(** The loop ends as soon as [stop] has been called. *)
Lemma enroll_loop_stopped (this : recognizer) (ticks : list tick) :
  Exists (fun t => stopped t = true) ticks ->
  forall is_running e, exists e', enroll_loop this is_running e ticks = Some e'.
Proof.
  induction 1 as [t ticks Ht|t ticks _ IH]; intros is_running e; simpl.
  - destruct (is_running && _)%bool; eauto.
    rewrite Ht. simpl. rewrite enroll_loop_not_running. eauto.
  - destruct (is_running && _)%bool; eauto.
Qed.

(** So [enroll] settles, with the error or with a count. *)
Lemma enroll_settles (name : string) (this : recognizer) (ticks : list tick) :
  Exists (fun t => stopped t = true) ticks ->
  exists result this', enroll name ticks this = Some (result, this').
Proof.
  intros H. unfold enroll.
  destruct (enroll_loop_stopped (set_running true this) ticks H true enroll_start)
    as [e ->].
  destruct (List.length (collected e) =? 0)%nat; eauto.
Qed.

(** C5.  Whenever the enrollment loop ends with no descriptor collected,
    [enroll] throws the error "No high-quality face samples collected..."
    and leaves the table and the persisted document as they were. *)
Theorem enroll_no_samples (name : string) (ticks : list tick) (this : recognizer)
    (e : enrollment) :
  enroll_loop (set_running true this) true enroll_start ticks = Some e ->
  collected e = [] ->
  exists this',
    enroll name ticks this = Some (Throw (Error no_samples), this')
    /\ db this' = db this
    /\ localStorage this' = localStorage this.
Proof.
  intros Hloop Hnone. unfold enroll. rewrite Hloop, Hnone. simpl.
  eexists. split; [reflexivity|]. split; reflexivity.
Qed.

Lemma enroll_no_samples_witness :
  exists this',
    enroll "Alice" no_good_frame (default_recognizer alice_bob None)
    = Some (Throw (Error no_samples), this')
    /\ db this' = db (default_recognizer alice_bob None)
    /\ localStorage this' = localStorage (default_recognizer alice_bob None).
Proof.
  apply (enroll_no_samples "Alice" no_good_frame (default_recognizer alice_bob None)
           enroll_start); reflexivity.
Defined.



(** ** Loading what was saved *)

Lemma map_completion_all {A B : Type} (f : A -> completion B) (g : A -> B)
    (l : list A) :
  (forall x, In x l -> f x = Return (g x)) ->
  map_completion f l = Return (map g l).
Proof.
  induction l as [|x l IH]; simpl; intros H; auto.
  rewrite (H x) by auto. rewrite IH by auto. reflexivity.
Qed.

Lemma map_completion_throws {A B : Type} (f : A -> completion B) (l : list A)
    (x : A) (e : error) :
  In x l -> f x = Throw e -> exists e', map_completion f l = Throw e'.
Proof.
  induction l as [|y l IH]; simpl; [tauto|]. intros [->|Hin] Hx.
  - rewrite Hx. eauto.
  - destruct (f y); eauto. destruct (IH Hin Hx) as [e' ->]. eauto.
Qed.

Lemma map_pair_eta {A : Type} (l : list (string * A)) :
  map (fun m => (fst m, snd m)) l = l.
Proof. induction l as [|[k v] l IH]; simpl; congruence. Qed.

(** From an object of the right shape [JSON.parse] rebuilds the members as
    they are written. *)
Lemma object_of_members_id {A : Type} (members : list (string * A)) :
  wf_keys (Object_keys members) = true -> object_of_members members = members.
Proof.
  intros H. unfold object_of_members.
  pose proof (fold_obj_set_id (fun m : string * A => snd m) members [] H) as E.
  simpl in E. rewrite E. apply map_pair_eta.
Qed.

(** [serializable] copies the table entry by entry. *)
Lemma serializable_wf (d : store) :
  wf_obj d = true ->
  serializable d = map (fun m => (fst m, map Array_from (snd m))) d.
Proof.
  intros H. unfold serializable.
  assert (Hfold : forall (o : store) acc,
            (forall m, In m o -> obj_get (fst m) d = Some (snd m)) ->
            fold_left
              (fun s name =>
                 match obj_get name d with
                 | Some list => obj_set name (map Array_from list) s
                 | None => s
                 end) (Object_keys o) acc
            = fold_left (fun s m => obj_set (fst m) (map Array_from (snd m)) s) o acc).
  { induction o as [|m o IH]; simpl; intros acc Hget; auto.
    rewrite (Hget m) by auto. apply IH. auto. }
  rewrite Hfold.
  - apply (fold_obj_set_id (fun m : string * list Float32Array => map Array_from (snd m)) d []).
    exact H.
  - intros m Hin. apply obj_get_own; auto. now apply wf_keys_NoDup.
Qed.

Section RoundTrip.
Variable ToNumber_other : json -> num.
Variable Float32Array_other : json -> option Float32Array.

Local Abbreviation read_back :=
  (fun x => fround (ToNumber ToNumber_other (stringify_number x))).

(** What [loadDB] makes of the document [saveDB] wrote: the same entries in
    the same order, each number as it comes back from its JSON form. *)
Lemma loadDB_saveDB (this : recognizer) :
  wf_obj (db this) = true ->
  loadDB ToNumber_other Float32Array_other (localStorage (saveDB this))
  = PlainObject (map (fun m => (fst m, map (map read_back) (snd m))) (db this)).
Proof.
  intros Hwf. unfold saveDB, loadDB, loadDB_try. simpl.
  rewrite (serializable_wf _ Hwf). unfold Object_entries.
  rewrite map_map. simpl.
  rewrite object_of_members_id.
  - rewrite map_completion_all
      with (g := fun m : string * json =>
                   (fst m,
                    match snd m with
                    | JArr items =>
                        map (fun arr =>
                               match arr with
                               | JArr xs => map (fun j => fround (ToNumber ToNumber_other j)) xs
                               | _ => []
                               end) items
                    | _ => []
                    end)).
    + rewrite map_map. simpl. f_equal. apply map_ext. intros [k l]. simpl.
      f_equal. rewrite !map_map. apply map_ext. intros a. unfold Array_from.
      now rewrite map_map.
    + intros m Hin. apply in_map_iff in Hin. destruct Hin as ([k l] & <- & _).
      simpl. rewrite map_completion_all
        with (g := fun arr =>
                     match arr with
                     | JArr xs => map (fun j => fround (ToNumber ToNumber_other j)) xs
                     | _ => []
                     end); auto.
      intros arr Hin. apply in_map_iff in Hin. destruct Hin as (a & <- & _).
      reflexivity.
  - unfold Object_keys. rewrite map_map. simpl. exact Hwf.
Qed.
End RoundTrip.

Lemma map_completion_keys {A B : Type} (f : A -> completion B)
    (o : obj A) (d : obj B) :
  map_completion
    (fun m => match f (snd m) with
              | Throw e => Throw e
              | Return l => Return (fst m, l)
              end) o = Return d ->
  Object_keys d = Object_keys o.
Proof.
  revert d. induction o as [|[k v] o IH]; simpl; intros d H.
  - now inversion H.
  - destruct (f v); [|discriminate].
    destruct (map_completion _ o) as [d'|]; [|discriminate].
    inversion H. simpl. f_equal. now apply IH.
Qed.

(** Every table [loadDB] returns has the shape of an object. *)
Lemma loadDB_wf (ToNumber_other : json -> num)
    (Float32Array_other : json -> option Float32Array) (item : option raw)
    (d : store) :
  loadDB ToNumber_other Float32Array_other item = PlainObject d -> wf_obj d = true.
Proof.
  unfold loadDB, loadDB_try. destruct item as [[text|doc]|]; simpl.
  - destruct (String.eqb text ""); intros H; inversion H; reflexivity.
  - destruct doc as [| | |s|items|members]; try (intros H; inversion H; reflexivity).
    + destruct (String.eqb s ""); intros H; inversion H; reflexivity.
    + destruct (map_completion _ items); intros H; inversion H; reflexivity.
    + destruct (map_completion _ (Object_entries (object_of_members members)))
        as [d'|] eqn:E; intros H; inversion H; subst; [|reflexivity].
      unfold wf_obj. rewrite (map_completion_keys _ _ _ E).
      apply object_of_members_wf.
  - intros H. inversion H. reflexivity.
Qed.


Lemma is_finite_not_nan (x : num) : is_finite x = true -> not_nan x.
Proof.
  unfold is_finite, not_nan. rewrite negb_true_iff, orb_false_iff. tauto.
Qed.

Lemma plus_zero_eq (x : num) : not_nan x -> (x =? plus_zero x)%float = true.
Proof.
  intros Hx. unfold plus_zero. destruct (is_zero x) eqn:E; [exact E|].
  unfold not_nan, is_nan in Hx. now apply negb_false_iff in Hx.
Qed.

Lemma read_back_finite (ToNumber_other : json -> num) (x : num) :
  is_finite x = true -> is_float32 x ->
  fround (ToNumber ToNumber_other (stringify_number x)) = plus_zero x.
Proof.
  intros Hf H32. unfold stringify_number. rewrite Hf. simpl.
  unfold plus_zero. destruct (is_zero x); [reflexivity|exact H32].
Qed.

Lemma Forall2_map_r {A B : Type} (R : A -> B -> Prop) (f : A -> B) (l : list A) :
  Forall (fun x => R x (f x)) l -> Forall2 R l (map f l).
Proof. induction 1; simpl; constructor; auto. Qed.




(** ** Loading what cannot be read *)

(** C8.  [loadDB] always returns: whatever is persisted, it raises nothing.
    It returns the empty table when nothing is persisted, and whenever
    reading fails: on any text that is not JSON, on the text [null], on an
    object one of whose values is not an array (there is no list of
    descriptors to map over), on an object holding a descriptor from which
    no typed array can be built, and generally whenever the body of the
    [try] throws. *)
Theorem loadDB_failure (ToNumber_other : json -> num)
    (Float32Array_other : json -> option Float32Array) :
  loadDB ToNumber_other Float32Array_other None = PlainObject []
  /\ (forall text,
        loadDB ToNumber_other Float32Array_other (Some (Malformed text))
        = PlainObject [])
  /\ loadDB ToNumber_other Float32Array_other (Some (JsonText JNull)) = PlainObject []
  /\ (forall members name value,
        In (name, value) (Object_entries (object_of_members members)) ->
        (forall items, value <> JArr items) ->
        loadDB ToNumber_other Float32Array_other (Some (JsonText (JObj members)))
        = PlainObject [])
  /\ (forall members name items arr e,
        In (name, JArr items) (Object_entries (object_of_members members)) ->
        In arr items ->
        new_Float32Array ToNumber_other Float32Array_other arr = Throw e ->
        loadDB ToNumber_other Float32Array_other (Some (JsonText (JObj members)))
        = PlainObject [])
  /\ (forall item e,
        loadDB_try ToNumber_other Float32Array_other item = Throw e ->
        loadDB ToNumber_other Float32Array_other item = PlainObject []).
Proof.
  split; [reflexivity|]. split.
  { intros text. unfold loadDB, loadDB_try. simpl.
    destruct (String.eqb text ""); reflexivity. }
  split; [reflexivity|]. split; [|split].
  - intros members name value Hin Hna. unfold loadDB, loadDB_try. simpl.
    destruct (map_completion_throws
                (fun m : string * json =>
                   match to_descriptors ToNumber_other Float32Array_other (snd m) with
                   | Throw e => Throw e
                   | Return l => Return (fst m, l)
                   end)
                (Object_entries (object_of_members members)) (name, value) TypeError Hin)
      as [e' ->]; auto.
    simpl. destruct value; try reflexivity. now destruct (Hna items).
  - intros members name items arr e Hin Harr Hthrow. unfold loadDB, loadDB_try. simpl.
    destruct (map_completion_throws _ items arr e Harr Hthrow) as [e1 H1].
    destruct (map_completion_throws
                (fun m : string * json =>
                   match to_descriptors ToNumber_other Float32Array_other (snd m) with
                   | Throw e => Throw e
                   | Return l => Return (fst m, l)
                   end)
                (Object_entries (object_of_members members)) (name, JArr items) e1 Hin)
      as [e' ->]; auto.
    simpl. now rewrite H1.
  - intros item e H. unfold loadDB. now rewrite H.
Qed.

(** A number where the list of descriptors should be: the empty table. *)
Example loadDB_not_a_list :
  loadDB (fun _ => NaN) (fun _ => None)
    (Some (JsonText (JObj [("Alice", JNum 5%float)]))) = PlainObject [].
Proof. reflexivity. Qed.

(** ** The service worker *)

Module ServiceWorkerFacts.
Import ServiceWorker.


Example model_request :
  on_fetch "https://face.example"
    {| method := "GET";
       url := {| href := "https://face.example/models/tiny_face_detector_model-shard1";
                 origin := "https://face.example";
                 pathname := "/models/tiny_face_detector_model-shard1" |} |}
  = RespondWith StaleWhileRevalidate.
Proof. reflexivity. Qed.

Example shell_request :
  on_fetch "https://face.example"
    {| method := "GET";
       url := {| href := "https://face.example/face.html";
                 origin := "https://face.example";
                 pathname := "/face.html" |} |}
  = RespondWith CacheFirst.
Proof. reflexivity. Qed.

Example cdn_request :
  on_fetch "https://face.example"
    {| method := "GET";
       url := {| href := "https://cdn.jsdelivr.net/npm/face-api.js@0.22.2/dist/face-api.min.js";
                 origin := "https://cdn.jsdelivr.net";
                 pathname := "/npm/face-api.js@0.22.2/dist/face-api.min.js" |} |}
  = RespondWith StaleWhileRevalidate.
Proof. reflexivity. Qed.

Example post_request :
  on_fetch "https://face.example"
    {| method := "POST";
       url := {| href := "https://face.example/models/upload";
                 origin := "https://face.example";
                 pathname := "/models/upload" |} |}
  = NotHandled.
Proof. reflexivity. Qed.

End ServiceWorkerFacts.

(* ================================================================= *)
(** * Part III: further properties *)
(* ================================================================= *)

(** ** Arithmetic on NaN, and a number minus itself *)

Lemma Prim2SF_nan : Prim2SF nan = S754_nan.
Proof. reflexivity. Qed.

Lemma is_nan_SF (x : num) : Prim2SF x = S754_nan -> x = NaN.
Proof. intros H. apply Prim2SF_inj. now rewrite H. Qed.

Lemma sub_nan_r (x : num) : (x - NaN)%float = NaN.
Proof.
  apply is_nan_SF. rewrite FloatAxioms.sub_spec. unfold NaN. rewrite Prim2SF_nan.
  destruct (Prim2SF x) as [?|?| |? ? ?]; reflexivity.
Qed.

Lemma add_nan_r (x : num) : (x + NaN)%float = NaN.
Proof.
  apply is_nan_SF. rewrite FloatAxioms.add_spec. unfold NaN. rewrite Prim2SF_nan.
  destruct (Prim2SF x) as [?|?| |? ? ?]; reflexivity.
Qed.

Lemma add_nan_l (x : num) : (NaN + x)%float = NaN.
Proof.
  apply is_nan_SF. rewrite FloatAxioms.add_spec. unfold NaN. rewrite Prim2SF_nan.
  reflexivity.
Qed.

Lemma is_finite_SF (x : num) :
  is_finite x = true ->
  (exists s, Prim2SF x = S754_zero s) \/ (exists s m e, Prim2SF x = S754_finite s m e).
Proof.
  unfold is_finite, is_nan, is_infinity.
  rewrite !FloatAxioms.eqb_spec, FloatAxioms.abs_spec. unfold SFeqb.
  change (Prim2SF infinity) with (S754_infinity false).
  destruct (Prim2SF x) as [s|[]| |s m e]; simpl; try discriminate; intros _;
    [left|right]; eauto.
Qed.

Lemma sub_diag_finite (x : num) : is_finite x = true -> (x - x)%float = 0%float.
Proof.
  intros H. apply Prim2SF_inj. rewrite FloatAxioms.sub_spec.
  change (Prim2SF 0) with (S754_zero false).
  destruct (is_finite_SF x H) as [[s ->]|(s & m & e & ->)].
  - destruct s; reflexivity.
  - unfold SF64sub, SFsub. rewrite Z.min_id. unfold shl_align.
    rewrite !Z.sub_diag. reflexivity.
Qed.

(** ** [euclidean] *)

Section Euclidean.
Variables a b : Float32Array.

Let step (s : num) (i : nat) : num :=
  let d := (elem a i - elem b i)%float in (s + d * d)%float.

Lemma fold_step_nan (l : list nat) : fold_left step l NaN = NaN.
Proof.
  induction l as [|i l IH]; simpl; auto. unfold step at 2. now rewrite add_nan_l.
Qed.

Lemma fold_step_hits_nan (l : list nat) (i : nat) (s : num) :
  In i l -> elem b i = NaN -> fold_left step l s = NaN.
Proof.
  revert s. induction l as [|j l IH]; simpl; [tauto|]. intros s [->|Hin] Hb.
  - unfold step at 2. rewrite Hb, sub_nan_r.
    change (NaN * NaN)%float with NaN. rewrite add_nan_r. apply fold_step_nan.
  - now apply IH.
Qed.

(** A stored descriptor shorter than the query is at no distance at all. *)
Lemma euclidean_short : List.length b < List.length a -> euclidean a b = NaN.
Proof.
  intros H. unfold euclidean.
  change (fold_left _ (seq 0 (List.length a)) 0%float)
    with (fold_left step (seq 0 (List.length a)) 0%float).
  rewrite (fold_step_hits_nan _ (List.length b)).
  - reflexivity.
  - apply in_seq. lia.
  - unfold elem. now rewrite (proj2 (nth_error_None b (List.length b))) by lia.
Qed.
End Euclidean.

Lemma elem_in (a : Float32Array) (i : nat) :
  i < List.length a -> In (elem a i) a.
Proof.
  intros H. unfold elem. destruct (nth_error a i) as [x|] eqn:E.
  - now apply nth_error_In with i.
  - apply nth_error_None in E. lia.
Qed.

Lemma elem_app1 (b c : Float32Array) (i : nat) :
  i < List.length b -> elem (b ++ c) i = elem b i.
Proof. intros H. unfold elem. now rewrite nth_error_app1. Qed.

(** A descriptor of finite numbers is at distance zero from itself. *)
Lemma euclidean_self (a : Float32Array) :
  Forall (fun x => is_finite x = true) a -> euclidean a a = 0%float.
Proof.
  intros H. unfold euclidean. rewrite Forall_forall in H.
  assert (E : forall l, (forall i, In i l -> i < List.length a) ->
            fold_left
              (fun (s : num) (i : nat) =>
                 let d := (elem a i - elem a i)%float in (s + d * d)%float) l 0%float
            = 0%float).
  { induction l as [|i l IH]; simpl; intros Hl; auto.
    rewrite sub_diag_finite by (apply H, elem_in, Hl; auto).
    change (0 + 0 * 0)%float with 0%float. apply IH. auto. }
  rewrite E; [reflexivity|]. intros i Hi. apply in_seq in Hi. lia.
Qed.

(** What lies in the stored descriptor past the length of the query is not
    read. *)
Lemma euclidean_prefix (a b c : Float32Array) :
  List.length a <= List.length b -> euclidean a (b ++ c) = euclidean a b.
Proof.
  intros H. unfold euclidean. f_equal.
  assert (E : forall l s, (forall i, In i l -> i < List.length b) ->
            fold_left
              (fun (s : num) (i : nat) =>
                 let d := (elem a i - elem (b ++ c) i)%float in (s + d * d)%float) l s
            = fold_left
                (fun (s : num) (i : nat) =>
                   let d := (elem a i - elem b i)%float in (s + d * d)%float) l s).
  { induction l as [|i l IH]; simpl; intros s Hl; auto.
    rewrite elem_app1 by auto. apply IH. auto. }
  apply E. intros i Hi. apply in_seq in Hi. lia.
Qed.

(** ** More on matching *)

Lemma fle_antisym_eq (x y : num) : fle x y -> fle y x -> (x =? y)%float = true.
Proof.
  rewrite !fle_SFle, FloatAxioms.eqb_spec. unfold SFle, SFeqb.
  rewrite (SFcompare_antisym (Prim2SF x)).
  destruct (SFcompare (Prim2SF x) (Prim2SF y)) as [[]|]; simpl;
    intros [H|H] [H'|H']; congruence.
Qed.

(** A person-best can only go down when descriptors are added. *)
Lemma person_best_incl (desc : Float32Array) (l l' : list Float32Array) :
  incl l l' -> fle (person_best desc l') (person_best desc l).
Proof.
  intros Hincl. destruct (person_best_attained desc l) as [->|(s & Hs & E)].
  - apply fle_infinity, person_best_not_nan.
  - rewrite <- E. apply not_flt_fle.
    + rewrite E. apply person_best_not_nan.
    + apply person_best_not_nan.
    + apply person_best_lower. now apply Hincl.
Qed.

(** X3.  Adding descriptors to a person never raises that person's best
    distance to a query, and the order of a person's descriptors does not
    change it. *)
Theorem person_best_more_samples (desc : Float32Array) (l l' : list Float32Array) :
  incl l l' ->
  (person_best desc l' <=? person_best desc l)%float = true
  /\ (incl l' l -> (person_best desc l' =? person_best desc l)%float = true).
Proof.
  intros H. split.
  - now apply person_best_incl.
  - intros H'. apply fle_antisym_eq; now apply person_best_incl.
Qed.

Lemma person_best_more_samples_witness :
  (person_best [0%float] [[0.5%float]; [0.25%float]]
     <=? person_best [0%float] [[0.5%float]])%float = true
  /\ (incl [[0.5%float]; [0.25%float]] [[0.5%float]] ->
      (person_best [0%float] [[0.5%float]; [0.25%float]]
         =? person_best [0%float] [[0.5%float]])%float = true).
Proof.
  apply (person_best_more_samples [0%float] [[0.5%float]] [[0.5%float]; [0.25%float]]).
  intros x [<-|[]]. left. reflexivity.
Defined.

(** X1.  A distance is never below zero, and a descriptor of finite numbers
    is at distance exactly zero from itself. *)
Theorem euclidean_zero :
  (forall a b, (euclidean a b <? 0)%float = false)
  /\ (forall a, Forall (fun x => is_finite x = true) a -> euclidean a a = 0%float).
Proof.
  split.
  - intros a b. now apply euclidean_not_below_zero.
  - apply euclidean_self.
Qed.

Lemma euclidean_zero_witness :
  euclidean [0.5%float; (-0.25)%float; 3%float] [0.5%float; (-0.25)%float; 3%float]
  = 0%float.
Proof.
  apply (proj2 euclidean_zero). repeat constructor.
Defined.

Lemma top_two_all_infinite (desc : Float32Array) (d : store) (r : match_result) :
  top_two desc d r ->
  (forall e, In e d -> person_best desc (snd e) = POSITIVE_INFINITY) ->
  r = no_match.
Proof.
  intros [(Hn & Hb & Hs & _)|(pre & l & post & Hd & Hl & Hlt & _)] Hall.
  - destruct r as [n b s]. simpl in *. subst. reflexivity.
  - exfalso. rewrite <- Hl in Hlt.
    assert (E : person_best desc l = POSITIVE_INFINITY).
    { apply (Hall (bestName r, l)). rewrite Hd. apply in_or_app. simpl. auto. }
    rewrite E in Hlt. discriminate Hlt.
Qed.

Lemma person_best_all_short (desc : Float32Array) (l : list Float32Array) :
  (forall stored, In stored l -> List.length stored < List.length desc) ->
  person_best desc l = POSITIVE_INFINITY.
Proof.
  intros H. destruct (person_best_attained desc l) as [E|(s & Hs & E)]; auto.
  exfalso. pose proof (person_best_not_nan desc l) as Hn.
  rewrite <- E, (euclidean_short desc s (H s Hs)) in Hn. discriminate Hn.
Qed.

(** X2.  The distance to a stored descriptor shorter than the query is NaN,
    so a table whose descriptors are all shorter than the query matches
    nobody; of a stored descriptor longer than the query only the part up
    to the length of the query counts. *)
Theorem euclidean_length_mismatch (desc : Float32Array) :
  (forall stored,
     List.length stored < List.length desc -> euclidean desc stored = NaN)
  /\ (forall d : store,
        (forall e stored, In e d -> In stored (snd e) ->
           List.length stored < List.length desc) ->
        matchDescriptor d desc = no_match)
  /\ (forall stored more,
        List.length desc <= List.length stored ->
        euclidean desc (stored ++ more) = euclidean desc stored).
Proof.
  split; [|split].
  - intros stored. apply euclidean_short.
  - intros d H. apply (top_two_all_infinite desc d).
    + apply matchDescriptor_top_two.
    + intros e He. apply person_best_all_short. intros stored. now apply (H e).
  - intros stored more. apply euclidean_prefix.
Qed.

Lemma euclidean_length_mismatch_witness :
  matchDescriptor alice_bob [0.25%float; 0.5%float] = no_match.
Proof.
  apply (proj1 (proj2 (euclidean_length_mismatch [0.25%float; 0.5%float]))).
  intros e stored [<-|[<-|[]]] [<-|[]]; simpl; lia.
Defined.

Lemma not_flt_of_fle (x y : num) : fle x y -> (y <? x)%float = false.
Proof.
  intros H. destruct (y <? x)%float eqn:E; auto.
  exfalso. now apply (flt_irrefl_fle y x).
Qed.

Lemma person_best_reached (desc : Float32Array) (l : list Float32Array) :
  flt (person_best desc l) POSITIVE_INFINITY ->
  exists stored, In stored l /\ euclidean desc stored = person_best desc l.
Proof.
  intros H. destruct (person_best_attained desc l) as [E|E]; auto.
  rewrite E in H. discriminate H.
Qed.

(** X4.  A name [verify] reports, other than "Unknown", is the name of an
    enrolled person; the distance reported with it is the distance from the
    detected descriptor to one of that person's descriptors, no descriptor
    of anybody in the table is closer, and it is within the threshold. *)
Theorem verify_reports_enrolled (this : recognizer) (detection : option face)
    (name : string) (dist : num) :
  verify_step this detection = (name, dist) ->
  name <> "Unknown" ->
  exists query l stored,
    detectOne this detection = Some query
    /\ In (name, l) (db this)
    /\ In stored l
    /\ euclidean (descriptor query) stored = dist
    /\ (forall e s, In e (db this) -> In s (snd e) ->
          (euclidean (descriptor query) s <? dist)%float = false)
    /\ (dist <=? distanceThreshold this)%float = true.
Proof.
  unfold verify_step. destruct (detectOne this detection) as [query|];
    [|intros H; inversion H; congruence].
  set (m := matchDescriptor (db this) (descriptor query)).
  destruct (accept this m) eqn:Hacc; [|intros H; inversion H; congruence].
  intros H Hname. inversion H as [[Hn Hd]]. clear H.
  pose proof (matchDescriptor_top_two (descriptor query) (db this)) as Htop.
  fold m in Htop.
  pose proof (top_two_lower _ _ _ Htop) as Hlow.
  destruct Htop as [(Hu & _)|(pre & l & post & Hdb & Hl & Hlt & _)]; [congruence|].
  rewrite <- Hl in Hlt.
  destruct (person_best_reached _ _ Hlt) as (stored & Hs & Hdist).
  exists query, l, stored. split; [reflexivity|]. split.
  { rewrite Hdb. apply in_or_app. simpl. auto. }
  split; [exact Hs|]. split; [congruence|]. split.
  - intros e s He Hse.
    destruct (euclidean (descriptor query) s <? bestDist m)%float eqn:E; auto.
    exfalso.
    assert (F : flt (euclidean (descriptor query) s)
                    (person_best (descriptor query) (snd e)))
      by (apply flt_fle_trans with (bestDist m); auto).
    pose proof (person_best_lower (descriptor query) (snd e) s Hse) as G.
    unfold flt in F. congruence.
  - unfold accept in Hacc. apply andb_true_iff in Hacc. tauto.
Qed.

Lemma verify_reports_enrolled_witness :
  exists query l stored,
    detectOne boundary_recognizer (Some (front_face [0%float])) = Some query
    /\ In ("Alice", l) (db boundary_recognizer)
    /\ In stored l
    /\ euclidean (descriptor query) stored = 0.25%float
    /\ (forall e s, In e (db boundary_recognizer) -> In s (snd e) ->
          (euclidean (descriptor query) s <? 0.25)%float = false)
    /\ (0.25 <=? distanceThreshold boundary_recognizer)%float = true.
Proof.
  apply (verify_reports_enrolled boundary_recognizer (Some (front_face [0%float]))
           "Alice" 0.25%float eq_refl).
  discriminate.
Defined.



Lemma verify_loop_not_running (this : recognizer) (ticks : list tick) :
  verify_loop this false ticks = [].
Proof. destruct ticks; reflexivity. Qed.

(** X6.  [verify] calls [onResult] once for every frame up to and including
    the one during which [stop] is called, with the decision for that frame,
    and for no frame after it. *)
Theorem verify_until_stop (this : recognizer) (before : list tick) (t : tick)
    (after : list tick) :
  Forall (fun t => stopped t = false) before ->
  stopped t = true ->
  verify_loop this true (before ++ t :: after)
  = map (fun t => verify_step this (frame t)) (before ++ [t]).
Proof.
  intros Hb Ht. induction Hb as [|t0 before H0 _ IH]; simpl.
  - rewrite Ht. simpl. now rewrite verify_loop_not_running.
  - rewrite H0. simpl. now rewrite IH.
Qed.

Lemma verify_until_stop_witness :
  verify_loop boundary_recognizer true
    ({| frame := None; stopped := false |}
       :: {| frame := Some (front_face [0%float]); stopped := true |}
       :: [{| frame := Some (front_face [0%float]); stopped := false |}])
  = [("Unknown", 0%float); ("Alice", 0.25%float)].
Proof.
  apply (verify_until_stop boundary_recognizer
           [{| frame := None; stopped := false |}]
           {| frame := Some (front_face [0%float]); stopped := true |}
           [{| frame := Some (front_face [0%float]); stopped := false |}]).
  - repeat constructor.
  - reflexivity.
Defined.

(** ** The square of a difference *)

Lemma binary_round_aux_abs (s s' : bool) (mx ex : Z) (lx : location) :
  SFabs (binary_round_aux prec emax s mx ex lx)
  = SFabs (binary_round_aux prec emax s' mx ex lx).
Proof.
  unfold binary_round_aux.
  destruct (shr_fexp prec emax mx ex lx) as [mrs' e'].
  destruct (shr_fexp prec emax _ e' loc_Exact) as [mrs'' e''].
  destruct (shr_m mrs''); auto.
  destruct (e'' <=? emax - prec)%Z; auto.
Qed.

Lemma binary_normalize_opp_abs (m e : Z) :
  SFabs (binary_normalize prec emax (- m) e false)
  = SFabs (binary_normalize prec emax m e false).
Proof.
  destruct m as [|p|p]; simpl; auto; unfold binary_round;
    destruct (shl_align _ _ _); apply binary_round_aux_abs.
Qed.

Lemma SFsub_swap_abs (x y : spec_float) :
  SFabs (SFsub prec emax y x) = SFabs (SFsub prec emax x y).
Proof.
  destruct x as [[]|[]| |sx mx ex], y as [[]|[]| |sy my ey]; try reflexivity.
  unfold SFsub. rewrite (Z.min_comm ey ex).
  rewrite <- binary_normalize_opp_abs. f_equal. f_equal. lia.
Qed.

Lemma SFmul_square_abs (d : spec_float) :
  SFmul prec emax d d = SFmul prec emax (SFabs d) (SFabs d).
Proof.
  destruct d as [[]|[]| |[] m e]; simpl; try reflexivity.
Qed.

Lemma square_diff_swap (x y : num) :
  ((y - x) * (y - x))%float = ((x - y) * (x - y))%float.
Proof.
  apply Prim2SF_inj. rewrite !FloatAxioms.mul_spec, !FloatAxioms.sub_spec.
  unfold SF64mul, SF64sub.
  rewrite (SFmul_square_abs (SFsub prec emax (Prim2SF y) (Prim2SF x))), SFsub_swap_abs.
  now rewrite <- SFmul_square_abs.
Qed.

(** X19.  The distance between two descriptors of the same length does not
    depend on which is the query and which the stored one. *)
Theorem euclidean_symmetric (a b : Float32Array) :
  List.length a = List.length b -> euclidean a b = euclidean b a.
Proof.
  intros H. unfold euclidean. rewrite H. f_equal.
  generalize (seq 0 (List.length b)) as l. generalize 0%float as s.
  intros s l. revert s. induction l as [|i l IH]; simpl; intros s; auto.
  rewrite (square_diff_swap (elem b i) (elem a i)). apply IH.
Qed.

Lemma euclidean_symmetric_witness :
  euclidean [0.1%float; 2%float; (-3.5)%float] [1%float; 0.7%float; 4%float]
  = euclidean [1%float; 0.7%float; 4%float] [0.1%float; 2%float; (-3.5)%float].
Proof.
  exact (euclidean_symmetric [0.1%float; 2%float; (-3.5)%float]
           [1%float; 0.7%float; 4%float] eq_refl).
Defined.



(** ** Writing and deleting entries *)

Section ObjCompose.
Context {A : Type}.
Implicit Types (o : obj A) (k : string) (v : A).

Lemma obj_get_In k v o : obj_get k o = Some v -> In (k, v) o.
Proof.
  induction o as [|[k' v'] o IH]; simpl; [discriminate|].
  destruct (String.eqb_spec k k') as [->|_]; intros H.
  - inversion H. auto.
  - auto.
Qed.

Lemma obj_has_update k k' v o : obj_has k' (obj_update k v o) = obj_has k' o.
Proof. unfold obj_has. now rewrite obj_update_keys. Qed.

Lemma obj_has_insert k v o : obj_has k (obj_insert k v o) = true.
Proof.
  unfold obj_has. apply existsb_exists. exists k. split; [|apply String.eqb_refl].
  apply obj_insert_keys. auto.
Qed.

Lemma obj_update_update k v v' o :
  obj_update k v' (obj_update k v o) = obj_update k v' o.
Proof.
  induction o as [|[k0 v0] o IH]; simpl; auto.
  destruct (String.eqb k k0) eqn:E; simpl; rewrite E; congruence.
Qed.

Lemma obj_update_insert k v v' o :
  obj_has k o = false -> obj_update k v' (obj_insert k v o) = obj_insert k v' o.
Proof.
  unfold obj_has. induction o as [|[k0 v0] o IH]; simpl.
  - now rewrite String.eqb_refl.
  - intros H. apply orb_false_iff in H. destruct H as [H1 H2].
    destruct (precedes k k0); simpl.
    + now rewrite String.eqb_refl.
    + rewrite H1. now rewrite IH.
Qed.

(** Of two writes to one name the second is the one that counts. *)
Lemma obj_set_set k v v' o : obj_set k v' (obj_set k v o) = obj_set k v' o.
Proof.
  unfold obj_set at 2 3. destruct (obj_has k o) eqn:E.
  - unfold obj_set. rewrite obj_has_update, E. apply obj_update_update.
  - unfold obj_set. rewrite obj_has_insert. now apply obj_update_insert.
Qed.

Lemma obj_delete_update k v o : obj_delete k (obj_update k v o) = obj_delete k o.
Proof.
  unfold obj_delete. induction o as [|[k0 v0] o IH]; simpl; auto.
  destruct (String.eqb k k0) eqn:E; simpl; rewrite E; simpl; congruence.
Qed.

Lemma obj_delete_insert k v o : obj_delete k (obj_insert k v o) = obj_delete k o.
Proof.
  unfold obj_delete. induction o as [|[k0 v0] o IH]; simpl.
  - now rewrite String.eqb_refl.
  - destruct (precedes k k0); simpl.
    + now rewrite String.eqb_refl.
    + now rewrite IH.
Qed.

Lemma obj_delete_set k v o : obj_delete k (obj_set k v o) = obj_delete k o.
Proof.
  unfold obj_set. destruct (obj_has k o).
  - apply obj_delete_update.
  - apply obj_delete_insert.
Qed.

Lemma obj_delete_absent k o : obj_get k o = None -> obj_delete k o = o.
Proof.
  unfold obj_delete. induction o as [|[k0 v0] o IH]; simpl; auto.
  destruct (String.eqb k k0); [discriminate|]. simpl. intros H. now rewrite IH.
Qed.

Lemma obj_get_delete_other k k' o :
  k' <> k -> obj_get k' (obj_delete k o) = obj_get k' o.
Proof.
  intros Hne. unfold obj_delete. induction o as [|[k0 v0] o IH]; simpl; auto.
  destruct (String.eqb_spec k k0) as [->|H0]; simpl.
  - destruct (String.eqb_spec k' k0); [contradiction|exact IH].
  - now rewrite IH.
Qed.
End ObjCompose.

(** X11.  Of two [replace] calls for one name only the second shows, in the
    table and in what is stored; and [delete] after [replace] of the same
    name leaves the recognizer as [delete] alone would. *)
Theorem replace_last_wins (name : string) (first second : list Float32Array)
    (this : recognizer) :
  replace name second (replace name first this) = replace name second this
  /\ delete name (replace name first this) = delete name this.
Proof.
  unfold replace, delete, saveDB, setItem, set_db. simpl.
  rewrite obj_set_set, obj_delete_set. split; reflexivity.
Qed.

(** X12.  [delete] removes the entry of the name and nothing else: the
    entries of the other names are as before; deleting a name that has no
    entry leaves the table as it is; deleting twice is deleting once.  In
    each case the stored document is rewritten from the table. *)
Theorem delete_exact (name : string) (this : recognizer) :
  (forall other, other <> name ->
     obj_get other (db (delete name this)) = obj_get other (db this))
  /\ (obj_get name (db this) = None -> db (delete name this) = db this)
  /\ delete name (delete name this) = delete name this
  /\ localStorage (delete name this)
     = Some (JSON_stringify (serializable (db (delete name this)))).
Proof.
  split; [|split; [|split]].
  - intros other Hne. simpl. now apply obj_get_delete_other.
  - intros H. simpl. now apply obj_delete_absent.
  - unfold delete, saveDB, setItem, set_db. simpl.
    rewrite (obj_delete_absent name (obj_delete name (db this))); auto.
    apply obj_get_not_in, obj_delete_keys.
  - reflexivity.
Qed.



Lemma enroll_inv_start (this : recognizer) : enroll_inv this enroll_start.
Proof. unfold enroll_inv. simpl. repeat split; try lia. constructor. Qed.

Lemma enroll_step_collected (this : recognizer) (e : enrollment) (t : tick) :
  collected (enroll_step this e (frame t)) = collected e ++ usable this t.
Proof.
  unfold enroll_step, usable. destruct (detectOne this (frame t)) as [r|].
  - destruct (_ >=? _)%Z; reflexivity.
  - now rewrite app_nil_r.
Qed.

Lemma enroll_step_inv (this : recognizer) (e : enrollment) (detection : option face) :
  enroll_inv this e ->
  poseIdx e < List.length (poseInstructions this) ->
  enroll_inv this (enroll_step this e detection).
Proof.
  intros (Hpc & Hlen & Hidx & Hend & Htot & Hprog) Hlt.
  unfold enroll_step. destruct (detectOne this detection) as [r|];
    [|unfold enroll_inv; tauto].
  assert (Hlen' : List.length (collected e ++ [descriptor r])
                  = S (List.length (collected e)))
    by (rewrite length_app; simpl; lia).
  assert (Htot' : map snd (progress e ++
                             [(poseIdx e, (poseCount e + 1)%Z,
                               List.length (collected e ++ [descriptor r]))])
                  = seq 1 (List.length (collected e ++ [descriptor r]))).
  { rewrite map_app, Htot, Hlen', seq_S. reflexivity. }
  assert (Hcall : Forall
            (fun p : nat * Z * nat =>
               fst (fst p) < List.length (poseInstructions this)
               /\ (1 <= snd (fst p) <= Z.max 1 (samplesPerPose this))%Z)
            (progress e ++
               [(poseIdx e, (poseCount e + 1)%Z,
                 List.length (collected e ++ [descriptor r]))])).
  { apply Forall_app. split; auto. constructor; [|constructor].
    cbn [fst snd]. lia. }
  assert (Hlen'' : Z.of_nat (List.length (collected e ++ [descriptor r]))
                   = (Z.of_nat (List.length (collected e)) + 1)%Z)
    by (rewrite Hlen'; lia).
  destruct (poseCount e + 1 >=? samplesPerPose this)%Z eqn:E;
    unfold enroll_inv; cbn [collected poseIdx poseCount progress].
  - apply Z.geb_le in E.
    split; [lia|]. split; [lia|]. split; [lia|]. split; [auto|].
    split; [exact Htot'|exact Hcall].
  - rewrite Z.geb_leb in E. apply Z.leb_gt in E.
    split; [lia|]. split; [lia|]. split; [lia|]. split; [lia|].
    split; [exact Htot'|exact Hcall].
Qed.

Lemma enroll_loop_inv (this : recognizer) (ticks : list tick) :
  forall is_running e e',
    enroll_inv this e ->
    enroll_loop this is_running e ticks = Some e' ->
    enroll_inv this e'
    /\ (exists k, k <= List.length ticks
          /\ collected e' = collected e ++ flat_map (usable this) (firstn k ticks))
    /\ (is_running = true -> Forall (fun t => stopped t = false) ticks ->
        poseIdx e' = List.length (poseInstructions this)).
Proof.
  induction ticks as [|t ticks IH]; intros is_running e e' Hinv; simpl.
  - destruct (is_running && _)%bool eqn:C; [discriminate|].
    intros H. inversion H. subst e'. split; [exact Hinv|]. split.
    + exists 0. simpl. now rewrite app_nil_r.
    + intros -> _. simpl in C. apply Nat.ltb_ge in C.
      destruct Hinv as (_ & _ & Hidx & _). lia.
  - destruct (is_running && _)%bool eqn:C.
    + apply andb_true_iff in C. destruct C as [-> C]. apply Nat.ltb_lt in C.
      intros H.
      destruct (IH _ _ _ (enroll_step_inv this e (frame t) Hinv C) H)
        as (Hinv' & (k & Hk & Hcol) & Hfull).
      split; [exact Hinv'|]. split.
      * exists (S k). split; [simpl; lia|]. simpl.
        now rewrite Hcol, enroll_step_collected, <- app_assoc.
      * intros _ Hall. inversion Hall as [|? ? Ht Hrest]. subst.
        apply Hfull; auto. now rewrite Ht.
    + intros H. inversion H. subst e'. split; [exact Hinv|]. split.
      * exists 0. simpl. split; [lia|]. now rewrite app_nil_r.
      * intros -> _. simpl in C. apply Nat.ltb_ge in C.
        destruct Hinv as (_ & _ & Hidx & _). lia.
Qed.

Lemma in_firstn {A : Type} (k : nat) (l : list A) (x : A) :
  In x (firstn k l) -> In x l.
Proof.
  revert l. induction k as [|k IH]; intros [|y l]; simpl; try tauto.
  intros [H|H]; auto.
Qed.

Lemma usable_spec (this : recognizer) (t : tick) (d : Float32Array) :
  In d (usable this t) ->
  exists f, frame t = Some f
            /\ (box_width f <? minBoxWidth this)%float = false
            /\ d = map fround (descriptor f).
Proof.
  unfold usable, detectOne. destruct (frame t) as [f|]; [|intros []].
  destruct (box_width f <? minBoxWidth this)%float eqn:E; [intros []|].
  simpl. intros [<-|[]]. eauto.
Qed.

Lemma enroll_loop_facts (this : recognizer) (ticks : list tick) (e : enrollment) :
  enroll_loop (set_running true this) true enroll_start ticks = Some e ->
  enroll_inv this e
  /\ (exists k, k <= List.length ticks
        /\ collected e = flat_map (usable this) (firstn k ticks))
  /\ (Forall (fun t => stopped t = false) ticks ->
      poseIdx e = List.length (poseInstructions this)).
Proof.
  intros H.
  destruct (enroll_loop_inv (set_running true this) ticks true enroll_start e
              (enroll_inv_start _) H) as (Hinv & Hcol & Hfull).
  split; [exact Hinv|]. split; [exact Hcol|]. intros Hall. now apply Hfull.
Qed.







(** ** The cache *)

Module ServiceWorkerMore.
Import ServiceWorker ServiceWorkerLife.

Lemma cache_match_filter (req : request) (h : string) (c : cache) :
  h <> href (url req) ->
  cache_match req (filter (fun e => negb (String.eqb (fst e) h)) c)
  = cache_match req c.
Proof.
  intros Hne. induction c as [|[k r] c IH]; simpl; auto.
  destruct (String.eqb_spec k h) as [->|Hk]; simpl.
  - destruct (String.eqb_spec h (href (url req))); [contradiction|exact IH].
  - now rewrite IH.
Qed.

Lemma cache_match_put_same (req req' : request) (res : response) (c : cache) :
  href (url req') = href (url req) ->
  cache_match req (cache_put req' res c) = Some res.
Proof. intros H. unfold cache_put. simpl. rewrite H. now rewrite String.eqb_refl. Qed.

Lemma cache_match_put_other (req req' : request) (res : response) (c : cache) :
  href (url req') <> href (url req) ->
  cache_match req (cache_put req' res c) = cache_match req c.
Proof.
  intros H. unfold cache_put. simpl.
  destruct (String.eqb_spec (href (url req')) (href (url req))); [contradiction|].
  now apply cache_match_filter.
Qed.

(** X13.  Cache-first: once a request has been answered from the network
    with an [ok] response, the same request is answered with that response
    from the cache, without a fetch, whatever the network then does; a
    response that is not [ok] is handed on but not kept, so the next
    request goes to the network again. *)
Theorem cacheFirst_then_cached (req : request) (c : cache) (res : response)
    (later : settled) :
  cache_match req c = None ->
  (ok res = true ->
   cacheFirst req (cache_after (cacheFirst req c (Resolved res))) later
   = {| reply := Answer res;
        cache_after := cache_after (cacheFirst req c (Resolved res));
        fetched := false |})
  /\ (ok res = false ->
      cache_after (cacheFirst req c (Resolved res)) = c
      /\ fetched (cacheFirst req (cache_after (cacheFirst req c (Resolved res))) later)
         = true).
Proof.
  intros Hnone.
  assert (E : cacheFirst req c (Resolved res)
              = {| reply := Answer res;
                   cache_after := if ok res then cache_put req res c else c;
                   fetched := true |})
    by (unfold cacheFirst; now rewrite Hnone).
  rewrite E. simpl. split.
  - intros ->. unfold cacheFirst. now rewrite cache_match_put_same.
  - intros ->. split; [reflexivity|]. unfold cacheFirst. rewrite Hnone.
    destruct later; reflexivity.
Qed.

Lemma cacheFirst_then_cached_witness :
  cacheFirst page_request
    (cache_after (cacheFirst page_request [] (Resolved page_response))) Rejected
  = {| reply := Answer page_response;
       cache_after := cache_after (cacheFirst page_request [] (Resolved page_response));
       fetched := false |}.
Proof.
  exact (proj1 (cacheFirst_then_cached page_request [] page_response Rejected eq_refl)
           eq_refl).
Defined.

(** X14.  Stale-while-revalidate: with a response that is [ok] or opaque
    coming from the network, the reply is the cached copy if there is one
    and that response otherwise; the response replaces the cached copy, so
    the next reply for the same request is that response, whatever the
    network then does.  When the network fails, the reply is the cached
    copy, or nothing if there is none, and the cache is unchanged. *)
Theorem staleWhileRevalidate_refreshes (req : request) (c : cache) (res : response)
    (later : settled) :
  (ok res || opaque res)%bool = true ->
  reply (staleWhileRevalidate req c (Resolved res))
  = match cache_match req c with
    | Some stale => Answer stale
    | None => Answer res
    end
  /\ reply (staleWhileRevalidate req
              (cache_after (staleWhileRevalidate req c (Resolved res))) later)
     = Answer res
  /\ staleWhileRevalidate req c Rejected
     = {| reply := match cache_match req c with
                   | Some stale => Answer stale
                   | None => Undefined
                   end;
          cache_after := c;
          fetched := true |}.
Proof.
  intros H. unfold staleWhileRevalidate. simpl. rewrite H.
  rewrite cache_match_put_same by reflexivity.
  split; [|split].
  - destruct (cache_match req c); reflexivity.
  - reflexivity.
  - destruct (cache_match req c); reflexivity.
Qed.

Lemma staleWhileRevalidate_refreshes_witness :
  reply (staleWhileRevalidate weights_request
           [(href (url weights_request), old_weights)] (Resolved new_weights))
  = Answer old_weights
  /\ reply (staleWhileRevalidate weights_request
              (cache_after (staleWhileRevalidate weights_request
                              [(href (url weights_request), old_weights)]
                              (Resolved new_weights))) Rejected)
     = Answer new_weights
  /\ staleWhileRevalidate weights_request [(href (url weights_request), old_weights)] Rejected
     = {| reply := Answer old_weights;
          cache_after := [(href (url weights_request), old_weights)];
          fetched := true |}.
Proof.
  exact (staleWhileRevalidate_refreshes weights_request
           [(href (url weights_request), old_weights)] new_weights Rejected eq_refl).
Defined.


(** ** [isModelRequest] *)

Lemma prefix_app (sub s : string) :
  String.prefix sub s = true <-> exists post, s = (sub ++ post)%string.
Proof.
  revert s. induction sub as [|a sub IH]; intros [|b s]; simpl.
  - split; [intros _; exists ""; reflexivity|reflexivity].
  - split; [intros _; exists (String b s); reflexivity|reflexivity].
  - split; [discriminate|]. intros [post H]. discriminate.
  - destruct (ascii_dec a b) as [->|Hne].
    + rewrite IH. split; intros [post H]; exists post; congruence.
    + split; [discriminate|]. intros [post H]. congruence.
Qed.

Lemma includes_unfold (s sub : string) :
  includes s sub
  = if String.prefix sub s then true
    else match s with
         | EmptyString => false
         | String _ r => includes r sub
         end.
Proof. destruct s; reflexivity. Qed.

Lemma includes_app (s sub : string) :
  includes s sub = true <-> exists pre post, s = (pre ++ sub ++ post)%string.
Proof.
  induction s as [|a s IH]; rewrite includes_unfold.
  - destruct (String.prefix sub "") eqn:E.
    + split; [intros _|reflexivity]. apply prefix_app in E. destruct E as [post E].
      exists "", post. exact E.
    + split; [discriminate|]. intros (pre & post & H).
      destruct pre; [|discriminate]. simpl in H.
      assert (String.prefix sub "" = true) by (apply prefix_app; eauto). congruence.
  - destruct (String.prefix sub (String a s)) eqn:E.
    + split; [intros _|reflexivity]. apply prefix_app in E. destruct E as [post E].
      exists "", post. exact E.
    + rewrite IH. split.
      * intros (pre & post & H). exists (String a pre), post. simpl. congruence.
      * intros (pre & post & H). destruct pre as [|b pre].
        -- simpl in H.
           assert (String.prefix sub (String a s) = true) by (apply prefix_app; eauto).
           congruence.
        -- simpl in H. inversion H. eauto.
Qed.

(** X16.  The listener leaves a request alone exactly when its method is
    not GET, and answers it cache-first exactly when it is a GET to the
    worker's own origin whose path does not contain "/models/" anywhere;
    every other GET is answered stale-while-revalidate. *)
Theorem on_fetch_exactly (location_origin : string) (req : request) :
  (on_fetch location_origin req = NotHandled <-> method req <> "GET")
  /\ (on_fetch location_origin req = RespondWith CacheFirst
      <-> method req = "GET"
          /\ origin (url req) = location_origin
          /\ ~ exists pre post,
                pathname (url req) = (pre ++ "/models/" ++ post)%string)
  /\ (on_fetch location_origin req = RespondWith StaleWhileRevalidate
      <-> method req = "GET"
          /\ (origin (url req) <> location_origin
              \/ exists pre post,
                   pathname (url req) = (pre ++ "/models/" ++ post)%string)).
Proof.
  unfold on_fetch, isModelRequest.
  pose proof (includes_app (pathname (url req)) "/models/") as Hinc.
  destruct (String.eqb_spec (method req) "GET") as [Hm|Hm]; simpl.
  - destruct (String.eqb_spec (origin (url req)) location_origin) as [Ho|Ho].
    + destruct (includes (pathname (url req)) "/models/") eqn:E.
      * assert (Hp : exists pre post,
                  pathname (url req) = (pre ++ "/models/" ++ post)%string)
          by now apply Hinc.
        split; [|split]; split; try discriminate; try tauto.
      * assert (Hp : ~ exists pre post,
                  pathname (url req) = (pre ++ "/models/" ++ post)%string).
        { intros H. apply Hinc in H. discriminate. }
        split; [|split]; split; try discriminate; try tauto.
    + split; [|split]; split; try discriminate; try tauto.
  - split; [|split]; split; try discriminate; try tauto.
Qed.

(** ** [install] and [activate] *)

Lemma caches_get_set_same (name : string) (c : cache) (cs : cache_storage) :
  caches_get name (caches_set name c cs) = Some c.
Proof.
  induction cs as [|[k c0] cs IH]; simpl.
  - now rewrite String.eqb_refl.
  - destruct (String.eqb k name) eqn:E; simpl; rewrite E; auto.
Qed.

Lemma caches_get_set_other (name other : string) (c : cache) (cs : cache_storage) :
  other <> name -> caches_get other (caches_set name c cs) = caches_get other cs.
Proof.
  intros Hne. induction cs as [|[k c0] cs IH]; simpl.
  - destruct (String.eqb_spec name other); [congruence|reflexivity].
  - destruct (String.eqb_spec k name) as [->|Hk]; simpl.
    + destruct (String.eqb_spec name other); [congruence|reflexivity].
    + now rewrite IH.
Qed.

Lemma current_cache_set (c : cache) (cs : cache_storage) :
  current_cache (caches_set CACHE_NAME c cs) = c.
Proof. unfold current_cache, caches_open. now rewrite caches_get_set_same. Qed.

Lemma caches_get_filter (current name : string) (cs : cache_storage) :
  caches_get name (filter (fun b => String.eqb (fst b) current) cs)
  = if String.eqb name current then caches_get name cs else None.
Proof.
  induction cs as [|[k c] cs IH]; simpl.
  - now destruct (String.eqb name current).
  - destruct (String.eqb_spec k current) as [->|Hk]; simpl.
    + rewrite IH. rewrite (String.eqb_sym name current).
      destruct (String.eqb current name); reflexivity.
    + rewrite IH. destruct (String.eqb_spec name current) as [->|Hn]; auto.
      destruct (String.eqb_spec k current); [contradiction|reflexivity].
Qed.

Lemma filter_twice {A : Type} (f : A -> bool) (l : list A) :
  filter f (filter f l) = filter f l.
Proof.
  induction l as [|x l IH]; simpl; auto.
  destruct (f x) eqn:E; simpl; rewrite ?E; congruence.
Qed.

(** X17.  [activate] deletes every bucket whose name is not the current
    cache name and keeps the current one with its content, so the [fetch]
    listener finds what it had; activating twice changes nothing more. *)
Theorem activate_purges (cs : cache_storage) :
  (forall name, name <> CACHE_NAME -> caches_get name (activate cs) = None)
  /\ caches_get CACHE_NAME (activate cs) = caches_get CACHE_NAME cs
  /\ current_cache (activate cs) = current_cache cs
  /\ Forall (fun b => fst b = CACHE_NAME) (activate cs)
  /\ activate (activate cs) = activate cs.
Proof.
  assert (Hcur : caches_get CACHE_NAME (activate cs) = caches_get CACHE_NAME cs)
    by (unfold activate; rewrite caches_get_filter; now rewrite String.eqb_refl).
  split; [|split; [exact Hcur|split; [|split]]].
  - intros name Hne. unfold activate. rewrite caches_get_filter.
    destruct (String.eqb_spec name CACHE_NAME); [contradiction|reflexivity].
  - unfold current_cache, caches_open. rewrite Hcur.
    destruct (caches_get CACHE_NAME cs); reflexivity.
  - apply Forall_forall. intros b Hb. apply filter_In in Hb.
    now apply String.eqb_eq.
  - apply filter_twice.
Qed.

Section InstallFacts.
Variable resolve : string -> URL.
Variable network : request -> settled.

Local Abbreviation put_entry :=
  (fun (c : cache) (entry : string) =>
     match network (request_of_entry resolve entry) with
     | Resolved res => cache_put (request_of_entry resolve entry) res c
     | Rejected => c
     end).

Lemma fold_put_other (urls : list string) (c : cache) (req : request) :
  (forall entry, In entry urls -> href (resolve entry) <> href (url req)) ->
  cache_match req (fold_left put_entry urls c) = cache_match req c.
Proof.
  revert c. induction urls as [|u urls IH]; simpl; intros c H; auto.
  rewrite IH by auto. destruct (network (request_of_entry resolve u)); auto.
  apply cache_match_put_other. simpl. auto.
Qed.

Lemma fold_put_same (urls : list string) (c : cache) (entry : string)
    (res : response) :
  NoDup (map (fun u => href (resolve u)) urls) ->
  In entry urls ->
  network (request_of_entry resolve entry) = Resolved res ->
  cache_match (request_of_entry resolve entry) (fold_left put_entry urls c) = Some res.
Proof.
  revert c. induction urls as [|u urls IH]; simpl; intros c Hnd Hin Hres; [tauto|].
  inversion Hnd as [|? ? Hnotin Hnd']. subst. destruct Hin as [->|Hin].
  - rewrite fold_put_other.
    + rewrite Hres. now apply cache_match_put_same.
    + intros u Hu E. apply Hnotin. simpl in E. rewrite <- E.
      now apply (in_map (fun u => href (resolve u))).
  - now apply IH.
Qed.

Lemma distinct_NoDup (l : list string) : distinct l = true -> NoDup l.
Proof.
  induction l as [|x l IH]; simpl; intros H; constructor.
  - apply andb_true_iff in H. destruct H as [H _]. apply negb_true_iff in H.
    intros Hin. assert (existsb (String.eqb x) l = true); [|congruence].
    apply existsb_exists. exists x. split; auto. apply String.eqb_refl.
  - apply IH. apply andb_true_iff in H. tauto.
Qed.


End InstallFacts.


End ServiceWorkerMore.
